(** * Hack assembler (Assembler.cpp): shallow embedding and verification

    The development follows the layout of the C++ source: the library
    primitives the program relies on ([StdString]), then one module per
    class ([SymbolTable], [Parser], [Code], [Assembler]).  Mutable members
    are threaded explicitly; [std::unordered_map] is a [gmap]. *)

From stdpp Require Import gmap strings list fin_maps pretty.
From Stdlib Require Import ZArith Ascii String Lia.

Local Open Scope string_scope.
Local Open Scope Z_scope.

(** ** Machine integers *)

Definition INT_MAX : Z := 2 ^ 31 - 1.

(** Two's complement reduction of a 32-bit [int]. *)
Definition wrap_int (z : Z) : Z := (z + 2 ^ 31) mod 2 ^ 32 - 2 ^ 31.

(** [x++] / [++x] on an [int]. *)
Definition int_incr (z : Z) : Z := wrap_int (z + 1).

(** Reduction of a [size_t] (64 bits, unsigned). *)
Definition wrap_size_t (z : Z) : Z := z mod 2 ^ 64.

(** ** The [std::string] and <cctype> primitives used by the program *)

Module StdString.

(** [std::string::npos] *)
Definition npos : Z := 2 ^ 64 - 1.

Definition size (s : string) : Z := Z.of_nat (String.length s).

Definition empty (s : string) : bool :=
  match s with EmptyString => true | String _ _ => false end.

Fixpoint take (n : nat) (s : string) : string :=
  match n, s with
  | S n', String a t => String a (take n' t)
  | _, _ => EmptyString
  end.

Fixpoint drop (n : nat) (s : string) : string :=
  match n, s with
  | S n', String _ t => drop n' t
  | _, _ => s
  end.

(** [s.substr(pos, count)]: the characters [pos, pos + min(count, size - pos)).
    Every call site of the program has [pos <= size], so the
    [std::out_of_range] case does not arise. *)
Definition substr (s : string) (pos count : Z) : string :=
  take (Z.to_nat (Z.min count (size s - pos))) (drop (Z.to_nat pos) s).

(** Position of the first occurrence of a character. *)
Fixpoint index_char (c : ascii) (s : string) : option nat :=
  match s with
  | EmptyString => None
  | String a t => if Ascii.eqb a c then Some O else S <$> index_char c t
  end.

(** [s.find(c)] *)
Definition find_char (s : string) (c : ascii) : Z :=
  match index_char c s with
  | Some i => Z.of_nat i
  | None => npos
  end.

(** Position of the first occurrence of a substring. *)
Fixpoint index_str (pat s : string) : option nat :=
  if String.prefix pat s then Some O
  else match s with
       | EmptyString => None
       | String _ t => S <$> index_str pat t
       end.

(** [s.find(pat)] *)
Definition find_str (s pat : string) : Z :=
  match index_str pat s with
  | Some i => Z.of_nat i
  | None => npos
  end.

(** [s[0]]; on the empty string this is the terminating null character. *)
Definition front (s : string) : ascii :=
  match s with
  | EmptyString => Ascii.zero
  | String a _ => a
  end.

(** [s.back()]; only called on non-empty strings. *)
Fixpoint back (s : string) : ascii :=
  match s with
  | EmptyString => Ascii.zero
  | String a EmptyString => a
  | String _ t => back t
  end.

(** [::isspace] in the C locale: space, and \t \n \v \f \r. *)
Definition isspace (c : ascii) : bool :=
  let n := nat_of_ascii c in
  Nat.eqb n 32 || (Nat.leb 9 n && Nat.leb n 13).

(** [isdigit] *)
Definition isdigit (c : ascii) : bool :=
  let n := nat_of_ascii c in
  Nat.leb 48 n && Nat.leb n 57.

(** [s.erase(std::remove_if(s.begin(), s.end(), P), s.end())] *)
Fixpoint remove_if (P : ascii → bool) (s : string) : string :=
  match s with
  | EmptyString => EmptyString
  | String a t => if P a then remove_if P t else String a (remove_if P t)
  end.

Definition digit_val (c : ascii) : Z := Z.of_nat (nat_of_ascii c) - 48.

(** Value of the longest prefix of decimal digits. *)
Fixpoint digits_value (acc : Z) (s : string) : Z :=
  match s with
  | EmptyString => acc
  | String a t =>
      if isdigit a then digits_value (10 * acc + digit_val a) t else acc
  end.

(** [std::stoi(s)] for an [s] whose first character is a digit (the only
    way the program calls it): the digit prefix is converted and trailing
    characters are ignored; [None] is the [std::out_of_range] exception
    thrown when the value does not fit an [int]. *)
Definition stoi (s : string) : option Z :=
  let v := digits_value 0 s in
  if v <=? INT_MAX then Some v else None.

(** [std::to_string(i)] *)
Definition to_string (i : Z) : string := pretty i.

(** [std::bitset<n>(v).to_string()]: the low [n] bits of [v], most
    significant first.  The [int] argument is converted to
    [unsigned long long], which keeps the low bits of the two's
    complement representation. *)
Fixpoint bitset_to_string (n : nat) (v : Z) : string :=
  match n with
  | O => EmptyString
  | S k => String (if Z.testbit v (Z.of_nat k) then "1" else "0")%char
                  (bitset_to_string k v)
  end.

(** The segments successive [std::getline] calls deliver for a stream
    holding [content]: the text between newline characters.  The call
    that delivers the last segment reaches the end of the stream and
    sets [eofbit]; a stream ending in a newline therefore delivers one
    more, empty, segment. *)
Fixpoint getlines (content : string) : list string :=
  match content with
  | EmptyString => [EmptyString]
  | String c t =>
      if Ascii.eqb c "010"%char then EmptyString :: getlines t
      else match getlines t with
           | l :: ls => String c l :: ls
           | [] => [String c EmptyString]
           end
  end.

End StdString.

(** [operator[]] of [std::unordered_map]: a missing key is inserted with a
    value-initialised mapped value [d] before the reference is returned. *)
Definition map_subscript {V : Type} (d : V) (m : gmap string V) (k : string)
  : V * gmap string V :=
  match m !! k with
  | Some v => (v, m)
  | None => (d, <[k := d]> m)
  end.

(** ** class SymbolTable *)

Definition VAR_ADDRESS : Z := 16.
Definition ADDRESS_LEN : nat := 15.

Module SymbolTable.

Record t := mk {
  table : gmap string Z;
  nextVariableAddress : Z
}.

(** The constructor. *)
Definition new : t :=
  let tb : gmap string Z := ∅ in
  let tb := <["SP" := 0]> tb in
  let tb := <["LCL" := 1]> tb in
  let tb := <["ARG" := 2]> tb in
  let tb := <["THIS" := 3]> tb in
  let tb := <["THAT" := 4]> tb in
  let tb := foldl (λ tb i, <["R" +:+ StdString.to_string i := i]> tb)
                  tb (seqZ 0 16) in
  let tb := <["SCREEN" := 16384]> tb in
  let tb := <["KBD" := 24576]> tb in
  {| table := tb; nextVariableAddress := VAR_ADDRESS |}.

Definition contains (symbol : string) (st : t) : bool :=
  match table st !! symbol with
  | Some _ => true
  | None => false
  end.

Definition getAddress (symbol : string) (st : t) : Z * t :=
  let '(v, tb) := map_subscript 0 (table st) symbol in
  (v, {| table := tb; nextVariableAddress := nextVariableAddress st |}).

Definition addEntry (symbol : string) (address : Z) (st : t) : t :=
  {| table := <[symbol := address]> (table st);
     nextVariableAddress := nextVariableAddress st |}.

Definition addVariable (symbol : string) (st : t) : Z * t :=
  let st :=
    if negb (contains symbol st) then
      {| table := <[symbol := nextVariableAddress st]> (table st);
         nextVariableAddress := int_incr (nextVariableAddress st) |}
    else st in
  let '(v, tb) := map_subscript 0 (table st) symbol in
  (v, {| table := tb; nextVariableAddress := nextVariableAddress st |}).

End SymbolTable.

(** ** enum CommandType *)

Inductive CommandType :=
| A_COMMAND
| C_COMMAND
| L_COMMAND
| INVALID_COMMAND.

Global Instance CommandType_eq_dec : EqDecision CommandType.
Proof. solve_decision. Defined.

(** ** class Parser *)

Module Parser.
Import StdString.

(** [file] is the input stream, represented by the segments [std::getline]
    has yet to deliver; [eofbit] is set once the last one was read. *)
Record t := mk {
  file : list string;
  currentCommand : string;
  commandType : CommandType;
  symbol : string;
  dest : string;
  comp : string;
  jump : string
}.

(** The constructor opens the file; the strings are default-constructed,
    [commandType] has no initialiser: its indeterminate value is the
    parameter [uninit]. *)
Definition new (uninit : CommandType) (content : string) : t :=
  {| file := getlines content;
     currentCommand := "";
     commandType := uninit;
     symbol := "";
     dest := "";
     comp := "";
     jump := "" |}.

Definition hasMoreCommands (p : t) : bool :=
  match file p with
  | [] => false
  | _ :: _ => true
  end.

Definition getCommandType (p : t) : CommandType := commandType p.
Definition getSymbol (p : t) : string := symbol p.
Definition getDest (p : t) : string := dest p.
Definition getComp (p : t) : string := comp p.
Definition getJump (p : t) : string := jump p.

Definition parseCCommand (p : t) : t :=
  let cc := currentCommand p in
  let eqPos := find_char cc "=" in
  let semiPos := find_char cc ";" in
  let '(d, c) :=
    if negb (eqPos =? npos) then
      (substr cc 0 eqPos,
       substr cc (wrap_size_t (eqPos + 1)) (wrap_size_t (semiPos - eqPos - 1)))
    else
      ("", substr cc 0 semiPos) in
  let j :=
    if negb (semiPos =? npos) then substr cc (wrap_size_t (semiPos + 1)) npos
    else "" in
  {| file := file p; currentCommand := cc; commandType := commandType p;
     symbol := symbol p; dest := d; comp := c; jump := j |}.

Definition parseCommand (p : t) : t :=
  let cc := currentCommand p in
  if Ascii.eqb (front cc) "@" then
    {| file := file p; currentCommand := cc; commandType := A_COMMAND;
       symbol := substr cc 1 npos;
       dest := dest p; comp := comp p; jump := jump p |}
  else if Ascii.eqb (front cc) "(" && Ascii.eqb (back cc) ")" then
    {| file := file p; currentCommand := cc; commandType := L_COMMAND;
       symbol := substr cc 1 (wrap_size_t (size cc - 2));
       dest := dest p; comp := comp p; jump := jump p |}
  else if negb (find_char cc "=" =? npos) || negb (find_char cc ";" =? npos) then
    parseCCommand
      {| file := file p; currentCommand := cc; commandType := C_COMMAND;
         symbol := symbol p; dest := dest p; comp := comp p; jump := jump p |}
  else
    {| file := file p; currentCommand := cc; commandType := INVALID_COMMAND;
       symbol := symbol p; dest := dest p; comp := comp p; jump := jump p |}.

(** The two statements of [advance] that remove comments and whitespace. *)
Definition strip (line : string) : string :=
  remove_if isspace (substr line 0 (find_str line "//")).

Definition advance (p : t) : t :=
  if hasMoreCommands p then
    match file p with
    | [] => p
    | line :: rest =>
        let p := {| file := rest; currentCommand := strip line;
                    commandType := commandType p; symbol := symbol p;
                    dest := dest p; comp := comp p; jump := jump p |} in
        if negb (empty (currentCommand p)) then parseCommand p else p
    end
  else p.

End Parser.

(** ** class Code *)

Module Code.

Record t := mk {
  destTable : gmap string string;
  compTable : gmap string string;
  jumpTable : gmap string string
}.

Definition initDestTable (c : t) : t :=
  let tb := destTable c in
  let tb := <["" := "000"]> tb in
  let tb := <["M" := "001"]> tb in
  let tb := <["D" := "010"]> tb in
  let tb := <["MD" := "011"]> tb in
  let tb := <["A" := "100"]> tb in
  let tb := <["AM" := "101"]> tb in
  let tb := <["AD" := "110"]> tb in
  let tb := <["AMD" := "111"]> tb in
  {| destTable := tb; compTable := compTable c; jumpTable := jumpTable c |}.

Definition initCompTable (c : t) : t :=
  let tb := compTable c in
  let tb := <["0" := "0101010"]> tb in
  let tb := <["1" := "0111111"]> tb in
  let tb := <["-1" := "0111010"]> tb in
  let tb := <["D" := "0001100"]> tb in
  let tb := <["A" := "0110000"]> tb in
  let tb := <["M" := "1110000"]> tb in
  let tb := <["!D" := "0001101"]> tb in
  let tb := <["!A" := "0110001"]> tb in
  let tb := <["!M" := "1110001"]> tb in
  let tb := <["-D" := "0001111"]> tb in
  let tb := <["-A" := "0110011"]> tb in
  let tb := <["-M" := "1110011"]> tb in
  let tb := <["D+1" := "0011111"]> tb in
  let tb := <["A+1" := "0110111"]> tb in
  let tb := <["M+1" := "1110111"]> tb in
  let tb := <["D-1" := "0001110"]> tb in
  let tb := <["A-1" := "0110010"]> tb in
  let tb := <["M-1" := "1110010"]> tb in
  let tb := <["D+A" := "0000010"]> tb in
  let tb := <["D+M" := "1000010"]> tb in
  let tb := <["D-A" := "0010011"]> tb in
  let tb := <["D-M" := "1010011"]> tb in
  let tb := <["A-D" := "0000111"]> tb in
  let tb := <["M-D" := "1000111"]> tb in
  let tb := <["D&A" := "0000000"]> tb in
  let tb := <["D&M" := "1000000"]> tb in
  let tb := <["D|A" := "0010101"]> tb in
  let tb := <["D|M" := "1010101"]> tb in
  {| destTable := destTable c; compTable := tb; jumpTable := jumpTable c |}.

Definition initJumpTable (c : t) : t :=
  let tb := jumpTable c in
  let tb := <["" := "000"]> tb in
  let tb := <["JGT" := "001"]> tb in
  let tb := <["JEQ" := "010"]> tb in
  let tb := <["JGE" := "011"]> tb in
  let tb := <["JLT" := "100"]> tb in
  let tb := <["JNE" := "101"]> tb in
  let tb := <["JLE" := "110"]> tb in
  let tb := <["JMP" := "111"]> tb in
  {| destTable := destTable c; compTable := compTable c; jumpTable := tb |}.

(** The constructor. *)
Definition new : t :=
  initJumpTable (initCompTable (initDestTable
    {| destTable := ∅; compTable := ∅; jumpTable := ∅ |})).

Definition dest (mnemonic : string) (c : t) : string * t :=
  let '(v, tb) := map_subscript "" (destTable c) mnemonic in
  (v, {| destTable := tb; compTable := compTable c; jumpTable := jumpTable c |}).

Definition comp (mnemonic : string) (c : t) : string * t :=
  let '(v, tb) := map_subscript "" (compTable c) mnemonic in
  (v, {| destTable := destTable c; compTable := tb; jumpTable := jumpTable c |}).

Definition jump (mnemonic : string) (c : t) : string * t :=
  let '(v, tb) := map_subscript "" (jumpTable c) mnemonic in
  (v, {| destTable := destTable c; compTable := compTable c; jumpTable := tb |}).

End Code.

(** ** class Assembler *)

Module Assembler.
Import StdString.

Record t := mk {
  symbolTable : SymbolTable.t;
  code : Code.t
}.

Definition new : t :=
  {| symbolTable := SymbolTable.new; code := Code.new |}.

(** The [while] loop of [firstPass].  Each iteration consumes one segment
    of the stream, so [fuel = length (file parser)] iterations reach the
    end of the stream.  The final ROM counter is returned with the state. *)
Fixpoint firstPass_loop (fuel : nat) (parser : Parser.t) (romAddress : Z)
    (a : t) : Z * t :=
  match fuel with
  | O => (romAddress, a)
  | S fuel =>
      if Parser.hasMoreCommands parser then
        let parser := Parser.advance parser in
        let type := Parser.getCommandType parser in
        if decide (type = L_COMMAND) then
          firstPass_loop fuel parser romAddress
            {| symbolTable :=
                 SymbolTable.addEntry (Parser.getSymbol parser) romAddress
                   (symbolTable a);
               code := code a |}
        else if decide (type ≠ INVALID_COMMAND) then
          firstPass_loop fuel parser (int_incr romAddress) a
        else
          firstPass_loop fuel parser romAddress a
      else (romAddress, a)
  end.

Definition firstPass_run (uninit : CommandType) (inputFile : string) (a : t)
  : Z * t :=
  let parser := Parser.new uninit inputFile in
  firstPass_loop (List.length (Parser.file parser)) parser 0 a.

Definition firstPass (uninit : CommandType) (inputFile : string) (a : t) : t :=
  snd (firstPass_run uninit inputFile a).

(** How [secondPass] ends: it returns, or [std::stoi] throws
    [std::out_of_range], which nothing catches: the process is then
    terminated and [outFile] is neither flushed nor closed. *)
Inductive status := Returned | Threw.

(** The A_COMMAND branch: the address, or [None] when [std::stoi] throws. *)
Definition resolve (symbol : string) (st : SymbolTable.t)
  : option (Z * SymbolTable.t) :=
  if isdigit (front symbol) then
    match stoi symbol with
    | Some address => Some (address, st)
    | None => None
    end
  else Some (SymbolTable.addVariable symbol st).

Definition encodeA (address : Z) : string :=
  "0" +:+ bitset_to_string ADDRESS_LEN address.

(** The C_COMMAND branch: the three lookups and the emitted line. *)
Definition encodeC (d c j : string) (cd : Code.t) : string * Code.t :=
  let '(dest, cd) := Code.dest d cd in
  let '(comp, cd) := Code.comp c cd in
  let '(jump, cd) := Code.jump j cd in
  ("111" +:+ comp +:+ dest +:+ jump, cd).

(** The [while] loop of [secondPass]; the result holds the lines inserted
    into [outFile], in order.  When the run returns the file holds exactly
    these lines; when it throws, the file is left with whatever part of
    them the stream had flushed before the process was terminated. *)
Fixpoint secondPass_loop (fuel : nat) (parser : Parser.t) (a : t)
  : list string * status * t :=
  match fuel with
  | O => ([], Returned, a)
  | S fuel =>
      if Parser.hasMoreCommands parser then
        let parser := Parser.advance parser in
        let type := Parser.getCommandType parser in
        if decide (type = A_COMMAND) then
          match resolve (Parser.getSymbol parser) (symbolTable a) with
          | None => ([], Threw, a)
          | Some (address, st) =>
              let '(out, s, a') :=
                secondPass_loop fuel parser
                  {| symbolTable := st; code := code a |} in
              (encodeA address :: out, s, a')
          end
        else if decide (type = C_COMMAND) then
          let '(line, c) :=
            encodeC (Parser.getDest parser) (Parser.getComp parser)
                    (Parser.getJump parser) (code a) in
          let '(out, s, a') :=
            secondPass_loop fuel parser
              {| symbolTable := symbolTable a; code := c |} in
          (line :: out, s, a')
        else
          secondPass_loop fuel parser a
      else ([], Returned, a)
  end.

Definition secondPass (uninit : CommandType) (inputFile : string) (a : t)
  : list string * status * t :=
  let parser := Parser.new uninit inputFile in
  secondPass_loop (List.length (Parser.file parser)) parser a.

(** [assemble]: both passes over the same file, each with a parser of
    its own. *)
Definition assemble (uninit1 uninit2 : CommandType) (inputFile : string)
    (a : t) : list string * status * t :=
  secondPass uninit2 inputFile (firstPass uninit1 inputFile a).

(** The lines a run of the program inserts into the output stream: the
    content of the output file when the run returns. *)
Definition output (uninit1 uninit2 : CommandType) (inputFile : string)
  : list string :=
  (assemble uninit1 uninit2 inputFile new).1.1.

End Assembler.

(** ** Notions used to state the properties *)

(** The line-feed character, as a string. *)
Definition LF : string := String "010"%char EmptyString.

(** A 16-character string over '0' and '1'. *)
Fixpoint binary_string (s : string) : bool :=
  match s with
  | EmptyString => true
  | String a t => (Ascii.eqb a "0" || Ascii.eqb a "1") && binary_string t
  end.

Definition encoded_instruction (s : string) : Prop :=
  String.length s = 16%nat ∧ binary_string s = true.

(** The documented predefined symbols. *)
Definition predefined_symbols : list (string * Z) :=
  [("SP", 0); ("LCL", 1); ("ARG", 2); ("THIS", 3); ("THAT", 4);
   ("SCREEN", 16384); ("KBD", 24576);
   ("R0", 0); ("R1", 1); ("R2", 2); ("R3", 3); ("R4", 4); ("R5", 5);
   ("R6", 6); ("R7", 7); ("R8", 8); ("R9", 9); ("R10", 10); ("R11", 11);
   ("R12", 12); ("R13", 13); ("R14", 14); ("R15", 15)].

(** The three bitfields of a compute instruction. *)
Inductive field := Dest | Comp | Jump.

Definition table_of (f : field) (c : Code.t) : gmap string string :=
  match f with
  | Dest => Code.destTable c
  | Comp => Code.compTable c
  | Jump => Code.jumpTable c
  end.

Definition encode_field (f : field) (mnemonic : string) (c : Code.t) : string * Code.t :=
  match f with
  | Dest => Code.dest mnemonic c
  | Comp => Code.comp mnemonic c
  | Jump => Code.jump mnemonic c
  end.

(** Decoding reverses a table: the mnemonic that is mapped to [bits]. *)
Definition decode_field (f : field) (bits : string) (c : Code.t) : option string :=
  fst <$> List.find (λ kv, String.eqb kv.2 bits) (map_to_list (table_of f c)).

(** The operations of the symbol table. *)
Inductive operation :=
| Bind (name : string) (address : Z)
| AssignVariable (name : string)
| Contains (name : string)
| Resolve (name : string).

Definition perform (o : operation) (st : SymbolTable.t) : SymbolTable.t :=
  match o with
  | Bind name address => SymbolTable.addEntry name address st
  | AssignVariable name => (SymbolTable.addVariable name st).2
  | Contains name => let _ := SymbolTable.contains name st in st
  | Resolve name => (SymbolTable.getAddress name st).2
  end.

Definition perform_all (os : list operation) (st : SymbolTable.t)
  : SymbolTable.t :=
  foldl (λ st o, perform o st) st os.


(** ** What the translator sees of the parser *)

(** The command a parser reports: its type, with the fields the two passes
    read for that type. *)
Inductive Command :=
| AddressCommand (symbol : string)
| ComputeCommand (dest comp jump : string)
| LabelCommand (symbol : string)
| InvalidCommand.

Definition command_of (p : Parser.t) : Command :=
  match Parser.getCommandType p with
  | A_COMMAND => AddressCommand (Parser.getSymbol p)
  | C_COMMAND =>
      ComputeCommand (Parser.getDest p) (Parser.getComp p) (Parser.getJump p)
  | L_COMMAND => LabelCommand (Parser.getSymbol p)
  | INVALID_COMMAND => InvalidCommand
  end.

(** The parser after each [advance] of a loop
    [while (parser.hasMoreCommands()) { parser.advance(); ... }]. *)
Fixpoint parser_states (fuel : nat) (p : Parser.t) : list Parser.t :=
  match fuel with
  | O => []
  | S fuel =>
      if Parser.hasMoreCommands p then
        let p := Parser.advance p in p :: parser_states fuel p
      else []
  end.

(** The commands a pass over [inputFile] is given, one per iteration. *)
Definition reported_commands (uninit : CommandType) (inputFile : string)
  : list Command :=
  let parser := Parser.new uninit inputFile in
  command_of <$> parser_states (List.length (Parser.file parser)) parser.

(** A parser whose current command is [cc] and that has parsed nothing. *)
Definition parser_at (uninit : CommandType) (cc : string) : Parser.t :=
  {| Parser.file := []; Parser.currentCommand := cc;
     Parser.commandType := uninit; Parser.symbol := "";
     Parser.dest := ""; Parser.comp := ""; Parser.jump := "" |}.

(** The command [parseCommand] makes of a stripped, non-empty line. *)
Definition classify (cc : string) : Command :=
  command_of (Parser.parseCommand (parser_at INVALID_COMMAND cc)).

(** The command each source line stands for; [None] for a line that is
    empty once comments and whitespace are removed. *)
Definition line_command (line : string) : option Command :=
  let cc := Parser.strip line in
  if StdString.empty cc then None else Some (classify cc).

Definition is_instruction (c : Command) : bool :=
  match c with
  | AddressCommand _ | ComputeCommand _ _ _ => true
  | LabelCommand _ | InvalidCommand => false
  end.

(** Number of AddressCommand and ComputeCommand lines among [lines]. *)
Definition count_instructions (lines : list string) : nat :=
  List.length
    (filter (λ l, from_option is_instruction false (line_command l) = true)
            lines).

(** Number of AddressCommand and ComputeCommand lines of a source text. *)
Definition instruction_lines (inputFile : string) : nat :=
  count_instructions (StdString.getlines inputFile).

(** A source in which no line is empty once stripped. *)
Definition blank_free (lines : list string) : Prop :=
  Forall (λ l, is_Some (line_command l)) lines.

(** The operands of the address commands that are resolved through the
    symbol table (those not starting with a digit). *)
Definition symbolic_operands (cs : list Command) : list string :=
  omap (λ c, match c with
             | AddressCommand s =>
                 if StdString.isdigit (StdString.front s) then None else Some s
             | _ => None
             end) cs.

(** The names of [xs] that are not in [bound], each once, in the order of
    their first occurrence. *)
Fixpoint new_variables (bound : gset string) (xs : list string) : list string :=
  match xs with
  | [] => []
  | x :: xs =>
      if decide (x ∈ bound) then new_variables bound xs
      else x :: new_variables ({[x]} ∪ bound) xs
  end.

(** Successive [addVariable] calls. *)
Definition addVariables (xs : list string) (st : SymbolTable.t)
  : SymbolTable.t :=
  foldl (λ st x, (SymbolTable.addVariable x st).2) st xs.

(** A compute command all of whose mnemonics are in the encoder's tables. *)
Definition known_mnemonics (c : Command) : Prop :=
  match c with
  | ComputeCommand d c j =>
      d ∈ dom (Code.destTable Code.new)
      ∧ c ∈ dom (Code.compTable Code.new)
      ∧ j ∈ dom (Code.jumpTable Code.new)
  | _ => True
  end.

(** ** The two passes as functions of the reported commands *)

(** The command a parser holds before its first [parseCommand]. *)
Definition initial_command (uninit : CommandType) : Command :=
  command_of (parser_at uninit "").

(** The commands reported for a list of source lines: a line that is empty
    after stripping does not run [parseCommand], so the parser keeps
    reporting the command [last] it held before. *)
Fixpoint reported (last : Command) (lines : list string) : list Command :=
  match lines with
  | [] => []
  | l :: lines =>
      let c := from_option id last (line_command l) in
      c :: reported c lines
  end.

(** One iteration of the loop of [firstPass]. *)
Definition firstPass_step (s : Z * Assembler.t) (c : Command)
  : Z * Assembler.t :=
  match c with
  | LabelCommand sym =>
      (s.1, {| Assembler.symbolTable :=
                 SymbolTable.addEntry sym s.1 (Assembler.symbolTable s.2);
               Assembler.code := Assembler.code s.2 |})
  | InvalidCommand => s
  | AddressCommand _ | ComputeCommand _ _ _ => (int_incr s.1, s.2)
  end.

(** The loop of [secondPass]. *)
Fixpoint secondPass_on (cs : list Command) (a : Assembler.t)
  : list string * Assembler.status * Assembler.t :=
  match cs with
  | [] => ([], Assembler.Returned, a)
  | AddressCommand sym :: cs =>
      match Assembler.resolve sym (Assembler.symbolTable a) with
      | None => ([], Assembler.Threw, a)
      | Some (address, st) =>
          let '(out, s, a') :=
            secondPass_on cs {| Assembler.symbolTable := st;
                                Assembler.code := Assembler.code a |} in
          (Assembler.encodeA address :: out, s, a')
      end
  | ComputeCommand d c j :: cs =>
      let '(line, cd) := Assembler.encodeC d c j (Assembler.code a) in
      let '(out, s, a') :=
        secondPass_on cs {| Assembler.symbolTable := Assembler.symbolTable a;
                            Assembler.code := cd |} in
      (line :: out, s, a')
  | _ :: cs => secondPass_on cs a
  end.

(** A code whose tables still hold every entry the constructor put in
    (lookups of unknown mnemonics add entries, none is removed). *)
Definition code_extends (c : Code.t) : Prop :=
  ∀ f, table_of f Code.new ⊆ table_of f c.

(** Width of a bitfield. *)
Definition field_width (f : field) : nat :=
  match f with
  | Dest | Jump => 3
  | Comp => 7
  end.

(** ** The compute fields as the specification words them *)

(** The portions of [s] before and after its first [c]; [None] when [c]
    does not occur. *)
Fixpoint split_first (c : ascii) (s : string) : option (string * string) :=
  match s with
  | EmptyString => None
  | String a t =>
      if Ascii.eqb a c then Some (EmptyString, t)
      else match split_first c t with
           | Some (x, y) => Some (String a x, y)
           | None => None
           end
  end.

(** Split on the first '=' to get the destination and the remainder, then
    split the remainder on the first ';' to get the computation and the
    jump; an absent '=' gives the empty destination, an absent ';' the
    empty jump. *)
Definition compute_fields (line : string) : Command :=
  let '(d, rest) :=
    match split_first "=" line with
    | Some (d, rest) => (d, rest)
    | None => ("", line)
    end in
  let '(c, j) :=
    match split_first ";" rest with
    | Some (c, j) => (c, j)
    | None => (rest, "")
    end in
  ComputeCommand d c j.

(** ** Further notions *)

(** The text of a stream whose segments are [lines]: the segments joined
    by line feeds. *)
Fixpoint join_lines (lines : list string) : string :=
  match lines with
  | [] => ""
  | [l] => l
  | l :: ls => l +:+ LF +:+ join_lines ls
  end.

(** A string in which the character [c] does not occur. *)
Definition free_of (c : ascii) (s : string) : Prop :=
  StdString.index_char c s = None.

(** A string without whitespace characters. *)
Fixpoint no_space (s : string) : bool :=
  match s with
  | EmptyString => true
  | String a t => negb (StdString.isspace a) && no_space t
  end.

(** The first character of a line is neither '@' nor '('. *)
Definition plain_front (s : string) : Prop :=
  StdString.front s ≠ "@"%char ∧ StdString.front s ≠ "("%char.

(** ** The output, line by line *)

(** The bits of a mnemonic in the table the constructor builds; the empty
    string when the mnemonic is not there. *)
Definition field_bits (f : field) (m : string) : string :=
  default "" (table_of f Code.new !! m).

(** The line pass 2 writes for a command when the run ends with the
    symbol table [tb]; [None] for the commands that write nothing. *)
Definition emitted_line (tb : gmap string Z) (c : Command) : option string :=
  match c with
  | AddressCommand s =>
      if StdString.isdigit (StdString.front s)
      then Some (Assembler.encodeA (StdString.digits_value 0 s))
      else Some (Assembler.encodeA (default 0 (tb !! s)))
  | ComputeCommand d c j =>
      Some ("111" +:+ field_bits Comp c +:+ field_bits Dest d
            +:+ field_bits Jump j)
  | LabelCommand _ | InvalidCommand => None
  end.

(** A code whose lookups answer as those of a fresh one: the entries added
    by lookups of unknown mnemonics hold the empty string. *)
Definition code_answers (c : Code.t) : Prop :=
  ∀ f m, default "" (table_of f c !! m) = field_bits f m.

(** An address command whose literal does not fit an [int]. *)
Definition overflows (c : Command) : bool :=
  match c with
  | AddressCommand s =>
      StdString.isdigit (StdString.front s)
      && (INT_MAX <? StdString.digits_value 0 s)
  | _ => false
  end.

(** ** Reading the encoded lines back *)

(** The number a string of '0' and '1' denotes, most significant bit
    first. *)
Fixpoint binary_value_from (acc : Z) (s : string) : Z :=
  match s with
  | EmptyString => acc
  | String a t =>
      binary_value_from (2 * acc + (if Ascii.eqb a "1" then 1 else 0)) t
  end.

Definition binary_value (s : string) : Z := binary_value_from 0 s.

(** A string of decimal digits. *)
Fixpoint all_digits (s : string) : bool :=
  match s with
  | EmptyString => true
  | String a t => StdString.isdigit a && all_digits t
  end.

(** A mnemonic made of ordinary characters: no whitespace, no '/', '='
    or ';', not starting with '@' or '(', at most three characters. *)
Definition tidy (m : string) : Prop :=
  no_space m = true
  ∧ StdString.index_char "/" m = None
  ∧ StdString.index_char "=" m = None
  ∧ StdString.index_char ";" m = None
  ∧ StdString.front m ≠ "@"%char
  ∧ StdString.front m ≠ "("%char
  ∧ (String.length m ≤ 3)%nat.

Global Instance tidy_dec (m : string) : Decision (tidy m).
Proof. unfold tidy. apply _. Defined.

(** What is established of the line written for a command: an address
    line is always an encoded instruction; a compute line is one when its
    three mnemonics are known, and is shorter than 16 characters when one
    of them is not. *)
Definition line_fits (c : Command) (line : string) : Prop :=
  match c with
  | AddressCommand _ => encoded_instruction line
  | ComputeCommand d c j =>
      (known_mnemonics (ComputeCommand d c j) → encoded_instruction line)
      ∧ (¬ known_mnemonics (ComputeCommand d c j) →
         (String.length line < 16)%nat)
  | LabelCommand _ | InvalidCommand => False
  end.
(** ** Basic facts *)

Lemma map_subscript_Some {V} (d v : V) (m : gmap string V) k :
  m !! k = Some v → map_subscript d m k = (v, m).
Proof. unfold map_subscript. by intros ->. Qed.

Lemma map_subscript_None {V} (d : V) (m : gmap string V) k :
  m !! k = None → map_subscript d m k = (d, <[k := d]> m).
Proof. unfold map_subscript. by intros ->. Qed.

Lemma map_subscript_lookup {V} (d : V) (m : gmap string V) k :
  (map_subscript d m k).2 !! k = Some (map_subscript d m k).1.
Proof.
  unfold map_subscript. destruct (m !! k) eqn:E; simpl; [done|].
  apply lookup_insert_eq.
Qed.

Lemma map_subscript_mono {V} (d : V) (m : gmap string V) k k' v :
  m !! k' = Some v → (map_subscript d m k).2 !! k' = Some v.
Proof.
  unfold map_subscript. intros H. destruct (m !! k) eqn:E; simpl; [done|].
  rewrite lookup_insert_ne; [done|]. intros ->. congruence.
Qed.

Module SymbolTableFacts.
Import SymbolTable.

Lemma contains_true symbol st :
  contains symbol st = true ↔ is_Some (table st !! symbol).
Proof.
  unfold contains. destruct (table st !! symbol); split; intros H;
    try done; try (by eexists).
Qed.

Lemma contains_false symbol st :
  contains symbol st = false ↔ table st !! symbol = None.
Proof. unfold contains. by destruct (table st !! symbol). Qed.

Lemma getAddress_bound symbol st v :
  table st !! symbol = Some v → getAddress symbol st = (v, st).
Proof.
  intros H. unfold getAddress. rewrite (map_subscript_Some _ v) by done.
  by destruct st.
Qed.

Lemma getAddress_unbound symbol st :
  table st !! symbol = None →
  getAddress symbol st =
    (0, {| table := <[symbol := 0]> (table st);
           nextVariableAddress := nextVariableAddress st |}).
Proof. intros H. unfold getAddress. by rewrite map_subscript_None. Qed.

Lemma addVariable_bound symbol st v :
  table st !! symbol = Some v → addVariable symbol st = (v, st).
Proof.
  intros H. unfold addVariable, contains. rewrite H. simpl.
  rewrite (map_subscript_Some _ v) by done. by destruct st.
Qed.

Lemma addVariable_unbound symbol st :
  table st !! symbol = None →
  addVariable symbol st =
    (nextVariableAddress st,
     {| table := <[symbol := nextVariableAddress st]> (table st);
        nextVariableAddress := int_incr (nextVariableAddress st) |}).
Proof.
  intros H. unfold addVariable, contains. rewrite H. simpl.
  rewrite (map_subscript_Some _ (nextVariableAddress st)); [done|].
  apply lookup_insert_eq.
Qed.

End SymbolTableFacts.

(** ** The predefined symbols *)

(** C6: on a freshly constructed symbol table, [contains] is true for every
    predefined symbol and [getAddress] returns its documented address
    (leaving the table as it was). *)
Theorem predefined_symbols_resolve :
  Forall (λ '(name, address),
            SymbolTable.contains name SymbolTable.new = true
            ∧ SymbolTable.getAddress name SymbolTable.new
              = (address, SymbolTable.new))
         predefined_symbols.
Proof.
  unfold predefined_symbols.
  repeat (constructor;
    [split; [vm_compute; reflexivity
            | apply SymbolTableFacts.getAddress_bound; vm_compute; reflexivity]
    |]).
  constructor.
Qed.

(** ** The encoder tables *)

Lemma encode_field_known f m bits c :
  table_of f c !! m = Some bits → encode_field f m c = (bits, c).
Proof.
  intros H. destruct f; simpl in *; unfold Code.dest, Code.comp, Code.jump;
    rewrite (map_subscript_Some _ bits) by done; by destruct c.
Qed.

Lemma encode_field_unknown f m c :
  table_of f c !! m = None → (encode_field f m c).1 = "".
Proof.
  intros H. destruct f; simpl in *; unfold Code.dest, Code.comp, Code.jump;
    by rewrite map_subscript_None.
Qed.

(** Every entry of a fresh table decodes to its own mnemonic, and no other
    entry carries the same bits. *)
Lemma tables_reversible (f : field) :
  map_Forall (λ m bits,
     decode_field f bits Code.new = Some m
     ∧ map_Forall (λ m' bits', bits' = bits → m' = m) (table_of f Code.new))
    (table_of f Code.new).
Proof.
  destruct f; refine (@bool_decide_unpack _ _ _); vm_compute; reflexivity.
Qed.

(** C7: for every mnemonic in the domain of the destination, computation
    or jump table, decoding the bits it is encoded to (by reversing that
    table) gives the mnemonic back; hence each table is injective on its
    domain. *)
Theorem encode_decode_roundtrip (f : field) (m : string) :
  m ∈ dom (table_of f Code.new) →
  decode_field f (encode_field f m Code.new).1 Code.new = Some m
  ∧ ∀ m', m' ∈ dom (table_of f Code.new) →
          (encode_field f m' Code.new).1 = (encode_field f m Code.new).1 →
          m' = m.
Proof.
  intros [bits Hm]%elem_of_dom.
  rewrite (encode_field_known _ _ _ _ Hm). simpl.
  destruct (tables_reversible f m bits Hm) as [Hd Hinj].
  split; [done|].
  intros m' [bits' Hm']%elem_of_dom.
  rewrite (encode_field_known _ _ _ _ Hm'). simpl. intros ->.
  by apply (Hinj m' bits).
Qed.

Lemma encode_decode_roundtrip_witness :
  "D+A" ∈ dom (table_of Comp Code.new)
  ∧ decode_field Comp (encode_field Comp "D+A" Code.new).1 Code.new
    = Some "D+A".
Proof.
  assert (H : "D+A" ∈ dom (table_of Comp Code.new)).
  { apply elem_of_dom. exists "0000010". vm_compute. reflexivity. }
  split; [exact H|]. exact (proj1 (encode_decode_roundtrip Comp "D+A" H)).
Defined.

(** The sizes of the three domains: 8 destinations, 28 computations,
    8 jumps. *)
Lemma table_sizes :
  size (table_of Dest Code.new) = 8%nat
  ∧ size (table_of Comp Code.new) = 28%nat
  ∧ size (table_of Jump Code.new) = 8%nat.
Proof. repeat split; vm_compute; reflexivity. Qed.

(** ** [getAddress] on an unbound name *)

(** C10: [getAddress] on an unbound name returns 0 and binds the name to 0;
    afterwards [contains] is true and [addVariable] returns 0 without
    allocating a variable address. *)
Theorem getAddress_unbound_binds_zero (name : string) (st : SymbolTable.t) :
  SymbolTable.contains name st = false →
  let '(v, st') := SymbolTable.getAddress name st in
  v = 0
  ∧ SymbolTable.table st' = <[name := 0]> (SymbolTable.table st)
  ∧ SymbolTable.contains name st' = true
  ∧ SymbolTable.addVariable name st' = (0, st')
  ∧ SymbolTable.nextVariableAddress st' = SymbolTable.nextVariableAddress st.
Proof.
  intros H%SymbolTableFacts.contains_false.
  rewrite SymbolTableFacts.getAddress_unbound by done.
  repeat split.
  - unfold SymbolTable.contains. simpl. by rewrite lookup_insert_eq.
  - apply SymbolTableFacts.addVariable_bound. simpl. apply lookup_insert_eq.
Qed.

Lemma getAddress_unbound_binds_zero_witness :
  SymbolTable.contains "i" SymbolTable.new = false
  ∧ (SymbolTable.getAddress "i" SymbolTable.new).1 = 0
  ∧ SymbolTable.addVariable "i" (SymbolTable.getAddress "i" SymbolTable.new).2
    = (0, (SymbolTable.getAddress "i" SymbolTable.new).2).
Proof.
  assert (H : SymbolTable.contains "i" SymbolTable.new = false)
    by (vm_compute; reflexivity).
  split; [exact H|].
  pose proof (getAddress_unbound_binds_zero "i" SymbolTable.new H) as W.
  destruct (SymbolTable.getAddress "i" SymbolTable.new) as [v st'].
  simpl. destruct W as (W1 & _ & _ & W4 & _). split; [exact W1 | exact W4].
Defined.

(** ** The symbol table only grows *)

Lemma perform_contains o st name :
  SymbolTable.contains name st = true →
  SymbolTable.contains name (perform o st) = true.
Proof.
  rewrite !SymbolTableFacts.contains_true. intros [v Hv].
  destruct o as [n a|n|n|n]; simpl.
  - destruct (decide (n = name)) as [->|Hne].
    + rewrite lookup_insert_eq. by eexists.
    + rewrite lookup_insert_ne by done. by eexists.
  - unfold SymbolTable.addVariable.
    destruct (negb (SymbolTable.contains n st)); simpl.
    + destruct (map_subscript _ _ _) as [w tb] eqn:E. simpl.
      exists (if decide (n = name) then SymbolTable.nextVariableAddress st else v).
      change tb with (w, tb).2. rewrite <- E. apply map_subscript_mono.
      case_decide as Hd.
      * subst. apply lookup_insert_eq.
      * by rewrite lookup_insert_ne.
    + destruct (map_subscript _ _ _) as [w tb] eqn:E. simpl.
      exists v. change tb with (w, tb).2. rewrite <- E.
      by apply map_subscript_mono.
  - by eexists.
  - unfold SymbolTable.getAddress.
    destruct (map_subscript _ _ _) as [w tb] eqn:E. simpl.
    exists v. change tb with (w, tb).2. rewrite <- E.
    by apply map_subscript_mono.
Qed.

(** C9: once [contains name] is true it stays true after any sequence of
    symbol-table operations; no operation removes a binding. *)
Theorem table_only_grows (os : list operation) (st : SymbolTable.t)
    (name : string) :
  SymbolTable.contains name st = true →
  SymbolTable.contains name (perform_all os st) = true.
Proof.
  revert st. induction os as [|o os IH]; intros st H; [done|].
  simpl. apply IH. by apply perform_contains.
Qed.

Lemma table_only_grows_witness :
  SymbolTable.contains "KBD" SymbolTable.new = true
  ∧ SymbolTable.contains "KBD"
      (perform_all [Bind "KBD" 7; AssignVariable "x"; Resolve "y";
                    Contains "z"; Bind "x" 3] SymbolTable.new) = true.
Proof.
  assert (H : SymbolTable.contains "KBD" SymbolTable.new = true)
    by (vm_compute; reflexivity).
  split; [exact H|]. exact (table_only_grows _ _ _ H).
Defined.

(** ** The loops and the commands the parser reports *)

Lemma parser_states_fuel (fuel : nat) (p : Parser.t) :
  (List.length (Parser.file p) ≤ fuel)%nat →
  parser_states fuel p = parser_states (List.length (Parser.file p)) p.
Proof.
  revert p. induction fuel as [|fuel IH]; intros p Hle.
  - destruct (Parser.file p) eqn:E; simpl in *; [done | lia].
  - simpl. unfold Parser.hasMoreCommands.
    destruct (Parser.file p) as [|l rest] eqn:E; simpl; [done|].
    assert (Hf : Parser.file (Parser.advance p) = rest).
    { unfold Parser.advance, Parser.hasMoreCommands. rewrite E. simpl.
      destruct (StdString.empty _); simpl; [done|].
      unfold Parser.parseCommand, Parser.parseCCommand. simpl.
      repeat (case_match; simpl; try done). }
    rewrite <- Hf. unfold Parser.hasMoreCommands. rewrite E.
    f_equal. apply IH. rewrite Hf. simpl in Hle. lia.
Qed.

Lemma firstPass_loop_commands fuel p rom a :
  Assembler.firstPass_loop fuel p rom a
  = foldl firstPass_step (rom, a) (command_of <$> parser_states fuel p).
Proof.
  revert p rom a. induction fuel as [|fuel IH]; intros p rom a; [done|].
  simpl. destruct (Parser.hasMoreCommands p); [|done]. simpl.
  unfold command_of at 1.
  destruct (Parser.getCommandType (Parser.advance p)); simpl; apply IH.
Qed.

Lemma secondPass_loop_commands fuel p a :
  Assembler.secondPass_loop fuel p a
  = secondPass_on (command_of <$> parser_states fuel p) a.
Proof.
  revert p a. induction fuel as [|fuel IH]; intros p a; [done|].
  simpl. destruct (Parser.hasMoreCommands p); [|done]. simpl.
  unfold command_of at 1.
  destruct (Parser.getCommandType (Parser.advance p)); simpl.
  - destruct (Assembler.resolve _ _) as [[address st]|]; [|done].
    by rewrite IH.
  - destruct (Assembler.encodeC _ _ _ _) as [line cd]. by rewrite IH.
  - apply IH.
  - apply IH.
Qed.

Lemma firstPass_run_commands u input a :
  Assembler.firstPass_run u input a
  = foldl firstPass_step (0, a) (reported_commands u input).
Proof. apply firstPass_loop_commands. Qed.

Lemma secondPass_commands u input a :
  Assembler.secondPass u input a = secondPass_on (reported_commands u input) a.
Proof. apply secondPass_loop_commands. Qed.

(** The loops stop when the stream is exhausted: fuel beyond the number of
    pending segments changes nothing. *)
Lemma firstPass_loop_fuel fuel p rom a :
  (List.length (Parser.file p) ≤ fuel)%nat →
  Assembler.firstPass_loop fuel p rom a
  = Assembler.firstPass_loop (List.length (Parser.file p)) p rom a.
Proof.
  intros H. rewrite !firstPass_loop_commands.
  by rewrite (parser_states_fuel fuel p H).
Qed.

Lemma secondPass_loop_fuel fuel p a :
  (List.length (Parser.file p) ≤ fuel)%nat →
  Assembler.secondPass_loop fuel p a
  = Assembler.secondPass_loop (List.length (Parser.file p)) p a.
Proof.
  intros H. rewrite !secondPass_loop_commands.
  by rewrite (parser_states_fuel fuel p H).
Qed.

(** [parseCommand] overwrites every field the reported command reads, so
    the command depends on the current line only. *)
Lemma command_of_parseCommand p :
  command_of (Parser.parseCommand p) = classify (Parser.currentCommand p).
Proof.
  unfold classify, Parser.parseCommand, Parser.parseCCommand. simpl.
  repeat (case_match; simpl; try done); congruence.
Qed.

Lemma file_advance p l rest :
  Parser.file p = l :: rest → Parser.file (Parser.advance p) = rest.
Proof.
  intros E. unfold Parser.advance, Parser.hasMoreCommands. rewrite E. simpl.
  destruct (StdString.empty _); simpl; [done|].
  unfold Parser.parseCommand, Parser.parseCCommand. simpl.
  repeat (case_match; simpl; try done).
Qed.

Lemma command_of_advance p l rest :
  Parser.file p = l :: rest →
  command_of (Parser.advance p)
  = from_option id (command_of p) (line_command l).
Proof.
  intros E. unfold Parser.advance, Parser.hasMoreCommands, line_command.
  rewrite E. simpl.
  destruct (StdString.empty (Parser.strip l)) eqn:Es; simpl; [done|].
  by rewrite command_of_parseCommand.
Qed.

Lemma parser_states_reported lines : ∀ p,
  Parser.file p = lines →
  command_of <$> parser_states (List.length lines) p
  = reported (command_of p) lines.
Proof.
  induction lines as [|l rest IH]; intros p E; [done|].
  simpl. unfold Parser.hasMoreCommands. rewrite E. simpl.
  f_equal; [by apply (command_of_advance p l rest)|].
  etrans; [apply (IH (Parser.advance p)); by eapply file_advance|].
  by rewrite (command_of_advance p l rest E).
Qed.

(** The commands a pass is given are those of the source lines, with the
    previous command repeated at every line that strips to nothing. *)
Lemma reported_commands_lines u input :
  reported_commands u input
  = reported (initial_command u) (StdString.getlines input).
Proof.
  unfold reported_commands. by rewrite (parser_states_reported _ _ eq_refl).
Qed.

(** ** Scenario: six instructions *)

(** C5: the source of the six lines @2, D=A, @3, D=D+A, @0, M=D is
    translated to six 16-bit lines, the first 0000000000000010 and the
    second 1110110000010000. *)
Theorem six_line_program (u1 u2 : CommandType) :
  let out :=
    Assembler.output u1 u2
      ("@2" +:+ LF +:+ "D=A" +:+ LF +:+ "@3" +:+ LF +:+ "D=D+A" +:+ LF
       +:+ "@0" +:+ LF +:+ "M=D") in
  List.length out = 6%nat
  ∧ Forall encoded_instruction out
  ∧ out !! 0%nat = Some "0000000000000010"
  ∧ out !! 1%nat = Some "1110110000010000".
Proof.
  assert (E : Assembler.output u1 u2
      ("@2" +:+ LF +:+ "D=A" +:+ LF +:+ "@3" +:+ LF +:+ "D=D+A" +:+ LF
       +:+ "@0" +:+ LF +:+ "M=D")
    = ["0000000000000010"; "1110110000010000"; "0000000000000011";
       "1110000010010000"; "0000000000000000"; "1110001100001000"])
    by (destruct u1, u2; vm_compute; reflexivity).
  cbv zeta. rewrite E. repeat split.
  repeat (constructor; [split; vm_compute; reflexivity|]). constructor.
Qed.

(** The six-line scenario again, with a line break after the last line:
    the stream delivers a seventh, empty segment and the last instruction
    is written twice. *)
Lemma final_newline_repeats_last_line (u1 u2 : CommandType) :
  Assembler.output u1 u2
    ("@2" +:+ LF +:+ "D=A" +:+ LF +:+ "@3" +:+ LF +:+ "D=D+A" +:+ LF
     +:+ "@0" +:+ LF +:+ "M=D" +:+ LF)
  = ["0000000000000010"; "1110110000010000"; "0000000000000011";
     "1110000010010000"; "0000000000000000"; "1110001100001000";
     "1110001100001000"].
Proof. destruct u1, u2; vm_compute; reflexivity. Qed.

(** ** Lines that strip to nothing *)

(** C1 fails on the code: a line that is empty after stripping leaves the
    parser's previous command type in place, and both passes act on it
    again.  The source "@2" followed by a line break has one address
    command and no compute command, yet two lines are written and the ROM
    counter of pass 1 ends at 2. *)
Theorem blank_line_repeats_instruction (u1 u2 : CommandType) :
  let input := "@2" +:+ LF in
  instruction_lines input = 1%nat
  ∧ Assembler.output u1 u2 input
    = ["0000000000000010"; "0000000000000010"]
  ∧ (Assembler.firstPass_run u1 input Assembler.new).1 = 2.
Proof. destruct u1, u2; vm_compute; done. Qed.

(** C3 fails on the code for the same reason: in the source
    "@2", "", "(LOOP)", "@LOOP" one address command precedes the label,
    but the empty line counts the address command once more and pass 1
    binds LOOP to 2. *)
Theorem blank_line_shifts_label (u1 : CommandType) :
  let before := "@2" +:+ LF +:+ LF in
  let input := before +:+ "(LOOP)" +:+ LF +:+ "@LOOP" in
  instruction_lines before = 1%nat
  ∧ SymbolTable.table
      (Assembler.symbolTable (Assembler.firstPass u1 input Assembler.new))
    !! "LOOP" = Some 2.
Proof. destruct u1; vm_compute; done. Qed.

(** ** Variable allocation *)

Lemma int_incr_in_range (z : Z) :
  - 2 ^ 31 ≤ z < INT_MAX → int_incr z = z + 1.
Proof.
  unfold int_incr, wrap_int, INT_MAX. intros H.
  rewrite Z.mod_small; lia.
Qed.

Lemma int_incr_bounds (z : Z) : - 2 ^ 31 ≤ int_incr z ≤ INT_MAX.
Proof.
  unfold int_incr, wrap_int, INT_MAX.
  pose proof (Z.mod_pos_bound (z + 1 + 2 ^ 31) (2 ^ 32)). lia.
Qed.

Lemma addVariable_preserves x st k v :
  SymbolTable.table st !! k = Some v →
  SymbolTable.table (SymbolTable.addVariable x st).2 !! k = Some v.
Proof.
  intros H. destruct (SymbolTable.table st !! x) as [w|] eqn:E.
  - by rewrite (SymbolTableFacts.addVariable_bound _ _ w).
  - rewrite SymbolTableFacts.addVariable_unbound by done. simpl.
    rewrite lookup_insert_ne; [done|]. intros ->. congruence.
Qed.

Lemma addVariables_preserves xs st k v :
  SymbolTable.table st !! k = Some v →
  SymbolTable.table (addVariables xs st) !! k = Some v.
Proof.
  revert st. induction xs as [|x xs IH]; intros st H; [done|].
  apply IH. by apply addVariable_preserves.
Qed.

(** Successive calls hand out consecutive addresses to the names that
    were not bound, in the order in which they first occur. *)
Lemma addVariables_allocates xs : ∀ st i x,
  let news := new_variables (dom (SymbolTable.table st)) xs in
  - 2 ^ 31 ≤ SymbolTable.nextVariableAddress st →
  SymbolTable.nextVariableAddress st + Z.of_nat (List.length news) ≤ 2 ^ 31 →
  news !! i = Some x →
  SymbolTable.table (addVariables xs st) !! x
  = Some (SymbolTable.nextVariableAddress st + Z.of_nat i).
Proof.
  induction xs as [|y xs IH]; intros st i x news Hlo Hhi Hi; [done|].
  subst news. simpl in *.
  destruct (decide (y ∈ dom (SymbolTable.table st))) as [Hin|Hnin].
  - apply elem_of_dom in Hin as [w Hw].
    rewrite (SymbolTableFacts.addVariable_bound _ _ w) by done.
    by apply IH.
  - apply not_elem_of_dom in Hnin.
    rewrite SymbolTableFacts.addVariable_unbound by done. simpl in *.
    destruct i as [|i]; simpl in Hi.
    + injection Hi as <-. rewrite Z.add_0_r.
      apply addVariables_preserves. simpl. apply lookup_insert_eq.
    + set (st1 := SymbolTable.mk _ _).
      assert (Hd : dom (SymbolTable.table st1)
                   = {[y]} ∪ dom (SymbolTable.table st))
        by (simpl; apply dom_insert_L).
      rewrite <- Hd in Hi, Hhi.
      assert (Hlen : (0 < List.length
                (new_variables (dom (SymbolTable.table st1)) xs))%nat)
        by (apply lookup_lt_Some in Hi; lia).
      assert (Hn : SymbolTable.nextVariableAddress st1
                   = SymbolTable.nextVariableAddress st + 1).
      { simpl. apply int_incr_in_range. unfold INT_MAX. lia. }
      rewrite (IH st1 i x); [rewrite Hn; f_equal; lia | lia | lia | done].
Qed.

Lemma secondPass_on_table cs : ∀ a out a2,
  secondPass_on cs a = (out, Assembler.Returned, a2) →
  Assembler.symbolTable a2
  = addVariables (symbolic_operands cs) (Assembler.symbolTable a).
Proof.
  induction cs as [|c cs IH]; intros a out a2 H.
  - simpl in H. by injection H as _ <-.
  - destruct c as [sym|d c j|sym|]; simpl in H.
    + unfold Assembler.resolve in H. simpl.
      destruct (StdString.isdigit (StdString.front sym)).
      * destruct (StdString.stoi sym); [|done].
        destruct (secondPass_on cs _) as [[out' s'] a'] eqn:E.
        injection H as _ -> ->. by rewrite (IH _ _ _ E).
      * destruct (SymbolTable.addVariable sym _) as [address st] eqn:Ea.
        destruct (secondPass_on cs _) as [[out' s'] a'] eqn:E.
        injection H as _ -> ->. rewrite (IH _ _ _ E). simpl.
        unfold addVariables at 2. simpl. by rewrite Ea.
    + destruct (Assembler.encodeC _ _ _ _) as [line cd].
      destruct (secondPass_on cs _) as [[out' s'] a'] eqn:E.
      injection H as _ -> ->. by rewrite (IH _ _ _ E).
    + by eapply IH.
    + by eapply IH.
Qed.

Lemma firstPass_step_nextVariableAddress cs : ∀ s,
  SymbolTable.nextVariableAddress
    (Assembler.symbolTable (foldl firstPass_step s cs).2)
  = SymbolTable.nextVariableAddress (Assembler.symbolTable s.2).
Proof.
  induction cs as [|c cs IH]; intros s; [done|].
  simpl. rewrite IH. by destruct c.
Qed.

(** The names pass 2 resolves through the symbol table that pass 1
    left unbound receive the addresses 16, 17, 18, ... in the order of
    their first occurrence (as long as these fit an [int]); and
    [addVariable] on a bound name returns its address and leaves the table
    as it is, so that repeating a call changes nothing. *)
Theorem variables_allocated_from_16 (u1 u2 : CommandType) (input : string)
    (out : list string) (a2 : Assembler.t) (i : nat) (x : string) :
  let a1 := Assembler.firstPass u1 input Assembler.new in
  let news :=
    new_variables (dom (SymbolTable.table (Assembler.symbolTable a1)))
                  (symbolic_operands (reported_commands u2 input)) in
  Assembler.secondPass u2 input a1 = (out, Assembler.Returned, a2) →
  16 + Z.of_nat (List.length news) ≤ 2 ^ 31 →
  news !! i = Some x →
  SymbolTable.table (Assembler.symbolTable a2) !! x = Some (16 + Z.of_nat i)
  ∧ (∀ name st v,
       SymbolTable.table st !! name = Some v →
       SymbolTable.addVariable name st = (v, st))
  ∧ (∀ name st,
       SymbolTable.addVariable name (SymbolTable.addVariable name st).2
       = SymbolTable.addVariable name st).
Proof.
  intros a1 news Hrun Hfit Hi.
  assert (Hnext : SymbolTable.nextVariableAddress (Assembler.symbolTable a1)
                  = 16).
  { unfold a1, Assembler.firstPass. rewrite firstPass_run_commands.
    by rewrite firstPass_step_nextVariableAddress. }
  split; [|split].
  - rewrite secondPass_commands in Hrun.
    rewrite (secondPass_on_table _ _ _ _ Hrun), <- Hnext.
    apply addVariables_allocates; rewrite ?Hnext; [lia | done | done].
  - intros name st v. apply SymbolTableFacts.addVariable_bound.
  - intros name st.
    destruct (SymbolTable.table st !! name) as [v|] eqn:E.
    + rewrite (SymbolTableFacts.addVariable_bound name st v E). simpl.
      by apply SymbolTableFacts.addVariable_bound.
    + rewrite (SymbolTableFacts.addVariable_unbound name st E). simpl.
      apply SymbolTableFacts.addVariable_bound. simpl. apply lookup_insert_eq.
Qed.

Lemma variables_allocated_from_16_witness :
  let input := "@foo" +:+ LF +:+ "@foo" +:+ LF +:+ "@bar" in
  let a1 := Assembler.firstPass INVALID_COMMAND input Assembler.new in
  new_variables (dom (SymbolTable.table (Assembler.symbolTable a1)))
    (symbolic_operands (reported_commands INVALID_COMMAND input))
  = ["foo"; "bar"]
  ∧ (Assembler.secondPass INVALID_COMMAND input a1).1
    = (["0000000000010000"; "0000000000010000"; "0000000000010001"],
       Assembler.Returned)
  ∧ SymbolTable.table
      (Assembler.symbolTable (Assembler.secondPass INVALID_COMMAND input a1).2)
    !! "bar" = Some 17.
Proof.
  intros input a1.
  split; [vm_compute; reflexivity|]. split; [vm_compute; reflexivity|].
  destruct (Assembler.secondPass INVALID_COMMAND input a1)
    as [[out s] a2] eqn:E.
  assert (Hs : s = Assembler.Returned).
  { change s with (out, s, a2).1.2. rewrite <- E. vm_compute. reflexivity. }
  subst s.
  refine (proj1 (variables_allocated_from_16 INVALID_COMMAND INVALID_COMMAND
                   input out a2 1 "bar" E _ _)).
  - vm_compute. discriminate.
  - vm_compute. reflexivity.
Defined.

(** ** The shape of the emitted lines *)

Lemma string_length_app (s1 s2 : string) :
  String.length (s1 +:+ s2) = (String.length s1 + String.length s2)%nat.
Proof. induction s1 as [|a s1 IH]; simpl; [done|]. by rewrite <- IH. Qed.

Lemma binary_string_app (s1 s2 : string) :
  binary_string (s1 +:+ s2) = binary_string s1 && binary_string s2.
Proof.
  induction s1 as [|a s1 IH]; [done|].
  change (String a s1 +:+ s2) with (String a (s1 +:+ s2)). simpl.
  rewrite IH. by rewrite andb_assoc.
Qed.

Lemma bitset_to_string_length n v :
  String.length (StdString.bitset_to_string n v) = n.
Proof. induction n as [|n IH]; simpl; [done|]. by rewrite IH. Qed.

Lemma bitset_to_string_binary n v :
  binary_string (StdString.bitset_to_string n v) = true.
Proof.
  induction n as [|n IH]; simpl; [done|]. rewrite IH.
  by destruct (Z.testbit v (Z.of_nat n)).
Qed.

(** An address line is always well formed, whatever the address. *)
Lemma encodeA_encoded address : encoded_instruction (Assembler.encodeA address).
Proof.
  unfold Assembler.encodeA, encoded_instruction.
  rewrite string_length_app, binary_string_app, bitset_to_string_length,
    bitset_to_string_binary. done.
Qed.

(** The bits of every entry of a fresh table have the width of the field. *)
Lemma tables_bits (f : field) :
  map_Forall (λ _ bits, String.length bits = field_width f
                        ∧ binary_string bits = true)
             (table_of f Code.new).
Proof.
  destruct f; refine (@bool_decide_unpack _ _ _); vm_compute; reflexivity.
Qed.

Lemma code_extends_new : code_extends Code.new.
Proof. by intros f. Qed.

Lemma map_subscript_subseteq {V} (d : V) (m : gmap string V) k :
  m ⊆ (map_subscript d m k).2.
Proof.
  unfold map_subscript. destruct (m !! k) eqn:E; simpl; [done|].
  by apply insert_subseteq.
Qed.

Lemma encode_field_extends f m c :
  code_extends c → code_extends (encode_field f m c).2.
Proof.
  intros H g. etrans; [apply H|].
  destruct f, g; simpl; unfold Code.dest, Code.comp, Code.jump;
    destruct (map_subscript _ _ _) as [v tb] eqn:E; simpl; try done;
    change tb with (v, tb).2; rewrite <- E; apply map_subscript_subseteq.
Qed.

Lemma encode_field_known_bits f m c :
  code_extends c → m ∈ dom (table_of f Code.new) →
  String.length (encode_field f m c).1 = field_width f
  ∧ binary_string (encode_field f m c).1 = true.
Proof.
  intros H [bits Hm]%elem_of_dom.
  pose proof (tables_bits f m bits Hm) as Hb. simpl in Hb.
  assert (Hc : table_of f c !! m = Some bits)
    by (eapply lookup_weaken; [exact Hm | apply H]).
  by rewrite (encode_field_known _ _ _ _ Hc).
Qed.

Lemma encodeC_eq d c j cd :
  Assembler.encodeC d c j cd
  = let r1 := encode_field Dest d cd in
    let r2 := encode_field Comp c r1.2 in
    let r3 := encode_field Jump j r2.2 in
    ("111" +:+ r2.1 +:+ r1.1 +:+ r3.1, r3.2).
Proof.
  unfold Assembler.encodeC. simpl.
  destruct (Code.dest d cd) as [v1 c1]. simpl.
  destruct (Code.comp c c1) as [v2 c2]. simpl.
  by destruct (Code.jump j c2) as [v3 c3].
Qed.

Lemma encodeC_extends d c j cd :
  code_extends cd → code_extends (Assembler.encodeC d c j cd).2.
Proof.
  intros H. rewrite encodeC_eq.
  change (code_extends
            (encode_field Jump j
               (encode_field Comp c (encode_field Dest d cd).2).2).2).
  by do 3 apply encode_field_extends.
Qed.

(** A compute line is well formed when its three mnemonics are known. *)
Lemma encodeC_encoded d c j cd :
  code_extends cd → known_mnemonics (ComputeCommand d c j) →
  encoded_instruction (Assembler.encodeC d c j cd).1.
Proof.
  intros H (Hd & Hc & Hj). rewrite encodeC_eq.
  change (encoded_instruction
            ("111" +:+ (encode_field Comp c (encode_field Dest d cd).2).1
             +:+ (encode_field Dest d cd).1
             +:+ (encode_field Jump j
                    (encode_field Comp c (encode_field Dest d cd).2).2).1)).
  pose proof (encode_field_extends Dest d cd H) as H1.
  pose proof (encode_field_extends Comp c _ H1) as H2.
  destruct (encode_field_known_bits Dest d cd H Hd) as [L1 B1].
  destruct (encode_field_known_bits Comp c _ H1 Hc) as [L2 B2].
  destruct (encode_field_known_bits Jump j _ H2 Hj) as [L3 B3].
  unfold encoded_instruction.
  rewrite !string_length_app, !binary_string_app, L1, L2, L3, B1, B2, B3.
  done.
Qed.

Lemma secondPass_on_encoded cs : ∀ a,
  code_extends (Assembler.code a) → Forall known_mnemonics cs →
  Forall encoded_instruction (secondPass_on cs a).1.1.
Proof.
  induction cs as [|c cs IH]; intros a Hc Hk; [by constructor|].
  apply Forall_cons in Hk as [Hk1 Hk].
  destruct c as [sym|d c j|sym|]; cbn [secondPass_on].
  - destruct (Assembler.resolve sym _) as [[address st]|]; [|by constructor].
    specialize (IH {| Assembler.symbolTable := st;
                      Assembler.code := Assembler.code a |} Hc Hk).
    destruct (secondPass_on cs _) as [[out s] a']. cbn [fst snd] in *.
    constructor; [apply encodeA_encoded | done].
  - pose proof (encodeC_encoded d c j _ Hc Hk1) as He.
    pose proof (encodeC_extends d c j _ Hc) as Hx.
    destruct (Assembler.encodeC d c j _) as [line cd]. cbn [fst snd] in *.
    specialize (IH {| Assembler.symbolTable := Assembler.symbolTable a;
                      Assembler.code := cd |} Hx Hk).
    destruct (secondPass_on cs _) as [[out s] a']. cbn [fst snd] in *.
    by constructor.
  - by apply IH.
  - by apply IH.
Qed.

Lemma firstPass_step_code cs : ∀ s,
  Assembler.code (foldl firstPass_step s cs).2 = Assembler.code s.2.
Proof.
  induction cs as [|c cs IH]; intros s; [done|].
  simpl. rewrite IH. by destruct c.
Qed.

(** C2 fails on the code: the tables are read with [operator[]], which
    yields the empty string for a mnemonic that is not in them.  The source
    line D=X is written as the nine characters 111010000. *)
Lemma unknown_mnemonic_short_line :
  Assembler.output INVALID_COMMAND INVALID_COMMAND "D=X" = ["111010000"]
  ∧ ¬ Forall encoded_instruction
        (Assembler.output INVALID_COMMAND INVALID_COMMAND "D=X").
Proof.
  assert (E : Assembler.output INVALID_COMMAND INVALID_COMMAND "D=X"
              = ["111010000"]) by (vm_compute; reflexivity).
  split; [exact E|]. rewrite E. intros H.
  apply Forall_cons in H as [[Hlen _] _]. vm_compute in Hlen. discriminate.
Qed.

(** For a whole run: when every compute command the parser reports during
    pass 2 has its destination, computation and jump mnemonics in the
    encoder's tables, every line written is exactly 16 characters long and
    consists of '0' and '1'. *)
Theorem emitted_lines_are_16_bits (u1 u2 : CommandType) (input : string) :
  Forall known_mnemonics (reported_commands u2 input) →
  Forall encoded_instruction (Assembler.output u1 u2 input).
Proof.
  intros Hk. unfold Assembler.output, Assembler.assemble.
  rewrite secondPass_commands. apply secondPass_on_encoded; [|done].
  unfold Assembler.firstPass. rewrite firstPass_run_commands.
  rewrite firstPass_step_code. apply code_extends_new.
Qed.

Lemma emitted_lines_are_16_bits_witness :
  let input := "(LOOP)" +:+ LF +:+ "@LOOP" +:+ LF +:+ "0;JMP" in
  Forall known_mnemonics (reported_commands INVALID_COMMAND input)
  ∧ Forall encoded_instruction
      (Assembler.output INVALID_COMMAND INVALID_COMMAND input).
Proof.
  intros input.
  assert (H : Forall known_mnemonics (reported_commands INVALID_COMMAND input)).
  { assert (E : reported_commands INVALID_COMMAND input
                = [LabelCommand "LOOP"; AddressCommand "LOOP";
                   ComputeCommand "" "0" "JMP"])
      by (vm_compute; reflexivity).
    rewrite E. repeat constructor.
    all: apply elem_of_dom; eexists; vm_compute; reflexivity. }
  split; [exact H|].
  exact (emitted_lines_are_16_bits INVALID_COMMAND INVALID_COMMAND input H).
Defined.

(** ** Splitting a compute command *)

Section StringFacts.
Import StdString.

Lemma index_char_split c s :
index_char c s = (λ xy, String.length xy.1) <$> split_first c s.
Proof.
induction s as [|a s IH]; simpl; [done|].
destruct (Ascii.eqb a c); [done|]. rewrite IH.
by destruct (split_first c s) as [[x y]|].
Qed.

Lemma split_first_app c s x y :
split_first c s = Some (x, y) → s = x +:+ String c y.
Proof.
revert x. induction s as [|a s IH]; intros x H; simpl in H; [done|].
destruct (Ascii.eqb a c) eqn:E.
- apply Ascii.eqb_eq in E as ->. by injection H as <- <-.
- destruct (split_first c s) as [[x' y']|]; [|done].
  injection H as <- <-.
  change (String a x' +:+ String c y')
    with (String a (x' +:+ String c y')).
  f_equal. by apply IH.
Qed.

Lemma index_char_app c x s :
index_char c x = None →
index_char c (x +:+ s) = (λ k, (String.length x + k)%nat) <$> index_char c s.
Proof.
induction x as [|a x IH]; intros H.
- change ("" +:+ s) with s. by destruct (index_char c s).
- change (String a x +:+ s) with (String a (x +:+ s)). simpl in *.
  destruct (Ascii.eqb a c); [done|].
  destruct (index_char c x); [done|]. rewrite IH by done.
  by destruct (index_char c s).
Qed.

Lemma take_app x z : ∀ n, n = String.length x → take n (x +:+ z) = x.
Proof.
induction x as [|a x IH]; intros n ->.
- done.
- change (String a x +:+ z) with (String a (x +:+ z)). simpl.
  f_equal. by apply IH.
Qed.

Lemma take_all s : ∀ n, (String.length s ≤ n)%nat → take n s = s.
Proof.
induction s as [|a s IH]; intros n H; [by destruct n|].
destruct n as [|n]; simpl in *; [lia|]. f_equal. apply IH. lia.
Qed.

Lemma drop_app x z : ∀ n, n = String.length x → drop n (x +:+ z) = z.
Proof.
induction x as [|a x IH]; intros n ->.
- change ("" +:+ z) with z. by destruct z.
- change (String a x +:+ z) with (String a (x +:+ z)). simpl. by apply IH.
Qed.

Lemma substr_app x m z count :
Z.min count (Z.of_nat (String.length m + String.length z))
= Z.of_nat (String.length m) →
substr (x +:+ (m +:+ z)) (Z.of_nat (String.length x)) count = m.
Proof.
intros H. unfold substr, size. rewrite Nat2Z.id, drop_app by done.
rewrite !string_length_app.
replace (Z.of_nat (String.length x + (String.length m + String.length z))
         - Z.of_nat (String.length x))
  with (Z.of_nat (String.length m + String.length z)) by lia.
rewrite H, Nat2Z.id. by apply take_app.
Qed.

Lemma substr_prefix m z :
substr (m +:+ z) 0 (Z.of_nat (String.length m)) = m.
Proof.
apply (substr_app "" m z). lia.
Qed.

Lemma substr_whole s count :
size s ≤ count → substr s 0 count = s.
Proof.
intros H. unfold size in H.
pose proof (substr_app "" s "" count) as E.
change ("" +:+ (s +:+ "")) with (s +:+ "") in E.
assert (Es : s +:+ "" = s).
{ clear. induction s as [|a s IH]; [done|].
  change (String a s +:+ "") with (String a (s +:+ "")). by rewrite IH. }
rewrite Es in E. apply E. simpl. lia.
Qed.

Lemma find_char_split cc c :
find_char cc c
= match split_first c cc with
  | Some (x, _) => Z.of_nat (String.length x)
  | None => npos
  end.
Proof.
unfold find_char. rewrite index_char_split.
by destruct (split_first c cc) as [[x y]|].
Qed.

Lemma split_first_length c s x y :
split_first c s = Some (x, y) →
String.length s = (String.length x + S (String.length y))%nat.
Proof.
intros H. rewrite (split_first_app _ _ _ _ H).
by rewrite string_length_app.
Qed.

Lemma split_first_app_None c x s :
split_first c x = None →
split_first c (x +:+ s)
= (λ xy, (x +:+ xy.1, xy.2)) <$> split_first c s.
Proof.
induction x as [|a x IH]; intros H.
- change ("" +:+ s) with s. by destruct (split_first c s) as [[? ?]|].
- change (String a x +:+ s) with (String a (x +:+ s)). simpl in *.
  destruct (Ascii.eqb a c); [done|].
  destruct (split_first c x) as [[? ?]|]; [done|]. rewrite IH by done.
  by destruct (split_first c s) as [[? ?]|].
Qed.

Lemma string_app_assoc (a b c : string) : (a +:+ b) +:+ c = a +:+ (b +:+ c).
Proof.
induction a as [|x a IH]; [done|].
change (String x ((a +:+ b) +:+ c) = String x (a +:+ (b +:+ c))).
by rewrite IH.
Qed.

Lemma string_app_nil_r (s : string) : s +:+ "" = s.
Proof.
induction s as [|a s IH]; [done|].
change (String a s +:+ "") with (String a (s +:+ "")). by rewrite IH.
Qed.

Lemma substr_split s x m z pos count :
s = x +:+ (m +:+ z) →
pos = Z.of_nat (String.length x) →
Z.min count (Z.of_nat (String.length m + String.length z))
= Z.of_nat (String.length m) →
substr s pos count = m.
Proof. intros -> ->. apply substr_app. Qed.

Lemma wrap_size_t_small z : 0 ≤ z < 2 ^ 64 → wrap_size_t z = z.
Proof. intros H. unfold wrap_size_t. by apply Z.mod_small. Qed.

(** When no ';' stands before the first '=' of a line that is classified
  by its operators, the fields are those of the two-stage split. *)
Lemma compute_fields_in_order (cc : string) :
size cc < npos →
front cc ≠ "@"%char →
¬ (front cc = "("%char ∧ back cc = ")"%char) →
is_Some (split_first "=" cc) ∨ is_Some (split_first ";" cc) →
(∀ d rest, split_first "=" cc = Some (d, rest) → split_first ";" d = None) →
classify cc = compute_fields cc.
Proof.
intros Hsize Hat Hlab Hop Hord.
unfold classify, Parser.parseCommand.
cbn [Parser.currentCommand parser_at].
rewrite (proj2 (Ascii.eqb_neq _ _) Hat).
assert (Ascii.eqb (front cc) "(" && Ascii.eqb (back cc) ")" = false) as ->.
{ apply not_true_is_false. intros [H1 H2]%andb_true_iff.
  apply Hlab. split; by apply Ascii.eqb_eq. }
unfold Parser.parseCCommand, command_of, compute_fields.
cbn [Parser.currentCommand].
rewrite !find_char_split.
unfold size, npos in Hsize.
destruct (split_first "=" cc) as [[d r]|] eqn:Eeq.
- pose proof (split_first_app _ _ _ _ Eeq) as Ecc.
  pose proof (split_first_length _ _ _ _ Eeq) as Elen.
  pose proof (Hord d r eq_refl) as Hd.
  assert (Esemi : split_first ";" cc
                  = (λ xy, (d +:+ String "=" xy.1, xy.2))
                      <$> split_first ";" r).
  { rewrite Ecc at 1. rewrite split_first_app_None by done.
    simpl. by destruct (split_first ";" r) as [[? ?]|]. }
  rewrite Esemi.
  assert ((Z.of_nat (String.length d) =? npos) = false) as ->
    by (apply Z.eqb_neq; unfold npos; lia).
  cbn [negb orb].
  destruct (split_first ";" r) as [[c j]|] eqn:Er;
    cbn [fmap option_fmap option_map fst snd].
  + pose proof (split_first_app _ _ _ _ Er) as Ercc.
    pose proof (split_first_length _ _ _ _ Er) as Erlen.
    rewrite string_length_app. cbn [String.length].
    assert ((Z.of_nat (String.length d + S (String.length c)) =? npos)
            = false)
      as -> by (apply Z.eqb_neq; unfold npos; lia).
    cbn [negb Parser.getCommandType Parser.commandType Parser.getDest
         Parser.getComp Parser.getJump Parser.dest Parser.comp Parser.jump].
    f_equal.
    * apply (substr_split _ "" d (String "=" r)); [done | done |].
      cbn [String.length]. lia.
    * rewrite !wrap_size_t_small by lia.
      apply (substr_split _ (d +:+ "=") c (String ";" j)).
      -- rewrite Ecc, Ercc, string_app_assoc. done.
      -- rewrite string_length_app. simpl. lia.
      -- cbn [String.length]. lia.
    * rewrite !wrap_size_t_small by lia.
      apply (substr_split _ (d +:+ String "=" c +:+ ";") j "").
      -- rewrite Ecc, Ercc, string_app_nil_r, !string_app_assoc. done.
      -- rewrite !string_length_app. simpl. lia.
      -- unfold npos. cbn [String.length]. lia.
  + cbn [negb Parser.getCommandType Parser.commandType Parser.getDest
         Parser.getComp Parser.getJump Parser.dest Parser.comp Parser.jump].
    rewrite Z.eqb_refl. cbn [negb].
    f_equal.
    * apply (substr_split _ "" d (String "=" r)); [done | done |].
      cbn [String.length]. lia.
    * rewrite !wrap_size_t_small by (unfold npos; lia).
      apply (substr_split _ (d +:+ "=") r "").
      -- rewrite Ecc, string_app_nil_r, string_app_assoc. done.
      -- rewrite string_length_app. simpl. lia.
      -- unfold npos. cbn [String.length]. lia.
- destruct Hop as [[? ?]|[[c j] Er]]; [done|]. rewrite Er.
  pose proof (split_first_app _ _ _ _ Er) as Ecc.
  pose proof (split_first_length _ _ _ _ Er) as Elen.
  rewrite Z.eqb_refl.
  assert ((Z.of_nat (String.length c) =? npos) = false) as ->
    by (apply Z.eqb_neq; unfold npos; lia).
  cbn [negb orb Parser.getCommandType Parser.commandType Parser.getDest
       Parser.getComp Parser.getJump Parser.dest Parser.comp Parser.jump].
  f_equal.
  + apply (substr_split _ "" c (String ";" j)); [done | done |].
    cbn [String.length]. lia.
  + rewrite !wrap_size_t_small by lia.
    apply (substr_split _ (c +:+ ";") j "").
    * rewrite Ecc, string_app_nil_r, string_app_assoc. done.
    * rewrite string_length_app. simpl. lia.
    * unfold npos. cbn [String.length]. lia.
Qed.

End StringFacts.

(** C8 fails on the code in two ways: a line starting with '@' is an
    address command even when it contains '=', and [parseCCommand] looks for
    ';' in the whole line, so a ';' standing before the first '=' makes the
    jump field everything after that ';'. *)
Lemma compute_fields_counterexample :
  classify "A;B=C" = ComputeCommand "A;B" "C" "B=C"
  ∧ compute_fields "A;B=C" = ComputeCommand "A;B" "C" ""
  ∧ classify "@D=A" = AddressCommand "D=A"
  ∧ ¬ (∀ cc, is_Some (split_first "=" cc) ∨ is_Some (split_first ";" cc) →
             classify cc = compute_fields cc).
Proof.
  split; [vm_compute; reflexivity|].
  split; [vm_compute; reflexivity|].
  split; [vm_compute; reflexivity|].
  intros H. specialize (H "A;B=C").
  assert (Hc : classify "A;B=C" = compute_fields "A;B=C").
  { apply H. left. eexists. vm_compute. reflexivity. }
  vm_compute in Hc. discriminate Hc.
Qed.


(** ** Sources without blank lines *)

Lemma reported_blank_free lines : ∀ last,
  blank_free lines → reported last lines = omap line_command lines.
Proof.
  induction lines as [|l lines IH]; intros last H; [done|].
  apply Forall_cons in H as [[c Hc] H]. simpl. rewrite Hc. simpl.
  f_equal. by apply IH.
Qed.

Lemma count_instructions_omap lines :
  count_instructions lines
  = List.length (filter (λ c, is_instruction c = true)
                        (omap line_command lines)).
Proof.
  unfold count_instructions.
  induction lines as [|l lines IH]; [done|].
  rewrite filter_cons. cbn [omap list_omap].
  destruct (line_command l) as [c|]; cbn [from_option].
  - rewrite filter_cons. destruct (decide _); simpl; by rewrite IH.
  - destruct (decide _); [done|]. apply IH.
Qed.

Lemma secondPass_on_length cs : ∀ a out a',
  secondPass_on cs a = (out, Assembler.Returned, a') →
  List.length out
  = List.length (filter (λ c, is_instruction c = true) cs).
Proof.
  induction cs as [|c cs IH]; intros a out a' H.
  - simpl in H. by injection H as <- _.
  - rewrite filter_cons.
    destruct c as [sym|d c j|sym|]; cbn [secondPass_on] in H; simpl.
    + destruct (Assembler.resolve sym _) as [[address st]|]; [|done].
      destruct (secondPass_on cs _) as [[out' s'] a''] eqn:E.
      injection H as <- -> ->. simpl. f_equal. by eapply IH.
    + destruct (Assembler.encodeC _ _ _ _) as [line cd].
      destruct (secondPass_on cs _) as [[out' s'] a''] eqn:E.
      injection H as <- -> ->. simpl. f_equal. by eapply IH.
    + by eapply IH.
    + by eapply IH.
Qed.

Lemma firstPass_rom cs : ∀ rom a,
  - 2 ^ 31 ≤ rom →
  rom + Z.of_nat (List.length (filter (λ c, is_instruction c = true) cs))
    ≤ INT_MAX →
  (foldl firstPass_step (rom, a) cs).1
  = rom + Z.of_nat (List.length (filter (λ c, is_instruction c = true) cs)).
Proof.
  induction cs as [|c cs IH]; intros rom a Hlo Hhi; [simpl; lia|].
  rewrite filter_cons in *.
  destruct c as [sym|d c j|sym|]; simpl in *.
  - rewrite IH; rewrite int_incr_in_range; lia.
  - rewrite IH; rewrite int_incr_in_range; lia.
  - by rewrite IH.
  - by rewrite IH.
Qed.

(** X15: without blank lines the number of lines written is the number
    of address and compute commands of the source. *)
Lemma blank_free_output_count u1 u2 input out a' :
  blank_free (StdString.getlines input) →
  Assembler.assemble u1 u2 input Assembler.new
  = (out, Assembler.Returned, a') →
  List.length out = instruction_lines input.
Proof.
  intros Hb H. unfold Assembler.assemble in H.
  rewrite secondPass_commands in H.
  rewrite (secondPass_on_length _ _ _ _ H).
  rewrite reported_commands_lines, reported_blank_free by done.
  by rewrite <- count_instructions_omap.
Qed.

(** Without blank lines the ROM counter of pass 1 ends at the number of
    address and compute commands. *)
Lemma blank_free_rom_counter u input a :
  blank_free (StdString.getlines input) →
  Z.of_nat (instruction_lines input) ≤ INT_MAX →
  (Assembler.firstPass_run u input a).1 = Z.of_nat (instruction_lines input).
Proof.
  intros Hb Hfit. rewrite firstPass_run_commands.
  rewrite reported_commands_lines, reported_blank_free by done.
  unfold instruction_lines in *. rewrite count_instructions_omap in *.
  rewrite firstPass_rom; lia.
Qed.

Lemma firstPass_step_keeps cs sym v : ∀ s,
  LabelCommand sym ∉ cs →
  SymbolTable.table (Assembler.symbolTable s.2) !! sym = Some v →
  SymbolTable.table (Assembler.symbolTable (foldl firstPass_step s cs).2)
  !! sym = Some v.
Proof.
  induction cs as [|c cs IH]; intros s Hn H; [done|].
  apply not_elem_of_cons in Hn as [Hc Hn].
  simpl. apply IH; [done|].
  destruct c as [x|d c j|x|]; simpl; try done.
  rewrite lookup_insert_ne; [done|]. congruence.
Qed.

(** X16: without blank lines a label is bound to the number of address
    and compute commands before its (last) declaration. *)
Lemma blank_free_label_address u input (pre post : list string) l sym a :
  StdString.getlines input = (pre ++ l :: post)%list →
  blank_free (StdString.getlines input) →
  line_command l = Some (LabelCommand sym) →
  Forall (λ l', line_command l' ≠ Some (LabelCommand sym)) post →
  Z.of_nat (count_instructions pre) ≤ INT_MAX →
  SymbolTable.table (Assembler.symbolTable (Assembler.firstPass u input a))
  !! sym = Some (Z.of_nat (count_instructions pre)).
Proof.
  intros Elines Hb Hl Hpost Hfit.
  unfold Assembler.firstPass. rewrite firstPass_run_commands.
  rewrite reported_commands_lines, reported_blank_free by done.
  rewrite Elines, omap_app, foldl_app. simpl. rewrite Hl. simpl.
  apply firstPass_step_keeps.
  - intros Hin. apply list_elem_of_omap in Hin as (l' & Hl' & Hc).
    by eapply (proj1 (Forall_forall _ _) Hpost).
  - simpl. rewrite lookup_insert_eq. f_equal.
    rewrite count_instructions_omap in *. rewrite firstPass_rom; lia.
Qed.

(** ** Reported commands and source lines *)

(** Every reported command is the command of a source line, or the one the
    parser held before the first line. *)
Lemma reported_elem lines : ∀ last c,
  c ∈ reported last lines →
  c = last ∨ ∃ l, l ∈ lines ∧ line_command l = Some c.
Proof.
  induction lines as [|l lines IH]; intros last c H; [by inversion H|].
  simpl in H. apply elem_of_cons in H as [->|H].
  - destruct (line_command l) as [c'|] eqn:E; simpl; [|by left].
    right. exists l. split; [left | done].
  - apply IH in H as [->|(l' & Hl' & Hc)].
    + destruct (line_command l) as [c'|] eqn:E; simpl; [|by left].
      right. exists l. split; [left | done].
    + right. exists l'. split; [by right | done].
Qed.



(** When the first line is not blank, or the uninitialised command type
    is not C_COMMAND, the compute commands reported are those of the
    source lines. *)
Lemma known_mnemonics_of_lines u input :
  u ≠ C_COMMAND
  ∨ (∃ l rest, StdString.getlines input = l :: rest
               ∧ is_Some (line_command l)) →
  (∀ l c, l ∈ StdString.getlines input → line_command l = Some c →
          known_mnemonics c) →
  Forall known_mnemonics (reported_commands u input).
Proof.
  intros H Hk. rewrite reported_commands_lines. apply Forall_forall.
  intros c Hc.
  destruct H as [Hu|(l & rest & E & [c0 Hc0])].
  - apply reported_elem in Hc as [->|(l & Hl & Hlc)]; [|by eapply Hk].
    by destruct u.
  - rewrite E in Hc, Hk. cbn [reported] in Hc. rewrite Hc0 in Hc.
    cbn [from_option id] in Hc.
    apply elem_of_cons in Hc as [->|Hc].
    + apply (Hk l); [left | done].
    + apply reported_elem in Hc as [->|(l' & Hl' & Hlc)].
      * apply (Hk l); [left | done].
      * apply (Hk l'); [by right | done].
Qed.

(** ** The stream and its segments *)

Lemma getlines_nonempty content : StdString.getlines content ≠ [].
Proof.
  destruct content as [|c t]; simpl; [done|].
  destruct (Ascii.eqb c "010"); [done|].
  by destruct (StdString.getlines t).
Qed.

(** X1: splitting a text into the segments [std::getline] delivers loses
    nothing: joining the segments with line feeds gives the text back, no
    segment contains a line feed, there is always at least one segment,
    and a list of line-feed-free segments is what its joined text is split
    into. *)
Theorem getlines_join_roundtrip (content : string) (lines : list string) :
  join_lines (StdString.getlines content) = content
  ∧ Forall (free_of "010") (StdString.getlines content)
  ∧ (0 < List.length (StdString.getlines content))%nat
  ∧ (lines ≠ [] → Forall (free_of "010") lines →
     StdString.getlines (join_lines lines) = lines).
Proof.
  split; [|split; [|split]].
  - induction content as [|c t IH]; [done|].
    cbn [StdString.getlines].
    destruct (Ascii.eqb c "010") eqn:E.
    + apply Ascii.eqb_eq in E as ->.
      pose proof (getlines_nonempty t) as Hne.
      destruct (StdString.getlines t) as [|l ls] eqn:El; [done|].
      change (join_lines ("" :: l :: ls))
        with (String "010" (join_lines (l :: ls))).
      by rewrite IH.
    + pose proof (getlines_nonempty t) as Hne.
      destruct (StdString.getlines t) as [|l ls] eqn:El; [done|].
      destruct ls as [|l' ls].
      * simpl in *. by rewrite IH.
      * change (join_lines (String c l :: l' :: ls))
          with (String c (join_lines (l :: l' :: ls))).
        by rewrite IH.
  - induction content as [|c t IH]; [by repeat constructor|].
    cbn [StdString.getlines].
    destruct (Ascii.eqb c "010") eqn:E.
    + constructor; [done | exact IH].
    + destruct (StdString.getlines t) as [|l ls] eqn:El.
      * repeat constructor. unfold free_of. simpl. by rewrite E.
      * apply Forall_cons in IH as [Hl Hls]. constructor; [|done].
        unfold free_of in *. simpl. by rewrite E, Hl.
  - pose proof (getlines_nonempty content).
    destruct (StdString.getlines content); simpl; [done | lia].
  - intros Hne Hfree. induction lines as [|l ls IH]; [done|].
    apply Forall_cons in Hfree as [Hl Hls].
    destruct ls as [|l' ls].
    + clear IH Hls. cbn [join_lines]. unfold free_of in Hl.
      induction l as [|a l IHl]; [done|].
      simpl in Hl. cbn [StdString.getlines].
      destruct (Ascii.eqb a "010"); [done|].
      destruct (StdString.index_char "010" l); [done|].
      by rewrite IHl.
    + specialize (IH ltac:(done) Hls).
      change (join_lines (l :: l' :: ls))
        with (l +:+ LF +:+ join_lines (l' :: ls)).
      unfold free_of in Hl. clear Hls.
      induction l as [|a l IHl].
      * change ("" +:+ LF +:+ join_lines (l' :: ls))
          with (String "010" (join_lines (l' :: ls))).
        cbn [StdString.getlines]. rewrite Ascii.eqb_refl. by rewrite IH.
      * simpl in Hl.
        change (String a l +:+ LF +:+ join_lines (l' :: ls))
          with (String a (l +:+ LF +:+ join_lines (l' :: ls))).
        cbn [StdString.getlines].
        destruct (Ascii.eqb a "010"); [done|].
        destruct (StdString.index_char "010" l); [done|].
        by rewrite IHl.
Qed.

Lemma getlines_join_roundtrip_witness :
  ["@2"; ""; "D=A"] ≠ []
  ∧ Forall (free_of "010") ["@2"; ""; "D=A"]
  ∧ StdString.getlines (join_lines ["@2"; ""; "D=A"]) = ["@2"; ""; "D=A"].
Proof.
  assert (H1 : ["@2"; ""; "D=A"] ≠ []) by discriminate.
  assert (H2 : Forall (free_of "010") ["@2"; ""; "D=A"])
    by (repeat constructor).
  split; [exact H1|]. split; [exact H2|].
  exact (proj2 (proj2 (proj2 (getlines_join_roundtrip "" _))) H1 H2).
Defined.

(** ** Comments and whitespace *)

Lemma take_app_le x z : ∀ n,
  (n ≤ String.length x)%nat → StdString.take n (x +:+ z) = StdString.take n x.
Proof.
  induction x as [|a x IH]; intros n H.
  - simpl in H. assert (n = O) as -> by lia. by destruct z.
  - destruct n as [|n]; [done|].
    change (String a x +:+ z) with (String a (x +:+ z)). simpl.
    f_equal. apply IH. simpl in H. lia.
Qed.

Lemma prefix_slashes s :
  String.prefix "//" s
  = match s with
    | String a (String b _) => Ascii.eqb a "/" && Ascii.eqb b "/"
    | _ => false
    end.
Proof.
  destruct s as [|a [|b t]]; cbn [String.prefix]; try done.
  - by destruct (ascii_dec "/" a).
  - destruct (ascii_dec "/" a) as [<-|Ha].
    + destruct (ascii_dec "/" b) as [<-|Hb].
      * by destruct t.
      * symmetry. apply Ascii.eqb_neq. congruence.
    + symmetry. apply andb_false_iff. left. apply Ascii.eqb_neq. congruence.
Qed.

(** The position of the first "//" in a line that has one after [pre]
    does not depend on what follows it. *)
Lemma index_str_comment pre :
  ∃ k, (k ≤ String.length pre)%nat
       ∧ ∀ c, StdString.index_str "//" (pre +:+ "//" +:+ c) = Some k.
Proof.
  induction pre as [|a pre (k & Hk & IH)].
  - exists O. split; [done|]. intros c.
    change ("" +:+ "//" +:+ c) with (String "/" (String "/" c)).
    cbn [StdString.index_str]. by rewrite prefix_slashes.
  - destruct (Ascii.eqb a "/"
              && Ascii.eqb (StdString.front (pre +:+ "/")) "/") eqn:E.
    + exists O. split; [simpl; lia|]. intros c.
      change (String a pre +:+ "//" +:+ c)
        with (String a (pre +:+ "//" +:+ c)).
      cbn [StdString.index_str]. rewrite prefix_slashes.
      destruct pre as [|b pre].
      * change ("" +:+ "//" +:+ c) with (String "/" (String "/" c)).
        change (StdString.front ("" +:+ "/")) with "/"%char in E.
        cbv beta iota. by rewrite E.
      * change (String b pre +:+ "//" +:+ c)
          with (String b (pre +:+ "//" +:+ c)).
        change (StdString.front (String b pre +:+ "/")) with b in E.
        cbv beta iota. by rewrite E.
    + exists (S k). split; [simpl; lia|]. intros c.
      change (String a pre +:+ "//" +:+ c)
        with (String a (pre +:+ "//" +:+ c)).
      cbn [StdString.index_str]. rewrite prefix_slashes, IH.
      destruct pre as [|b pre].
      * change ("" +:+ "//" +:+ c) with (String "/" (String "/" c)).
        change (StdString.front ("" +:+ "/")) with "/"%char in E.
        cbv beta iota. by rewrite E.
      * change (String b pre +:+ "//" +:+ c)
          with (String b (pre +:+ "//" +:+ c)).
        change (StdString.front (String b pre +:+ "/")) with b in E.
        cbv beta iota. by rewrite E.
Qed.

(** X2: whatever follows the first comment marker of a line has no effect
    on the command the parser sees. *)
Theorem comment_text_ignored (pre c1 c2 : string) :
  Parser.strip (pre +:+ "//" +:+ c1) = Parser.strip (pre +:+ "//" +:+ c2)
  ∧ line_command (pre +:+ "//" +:+ c1) = line_command (pre +:+ "//" +:+ c2).
Proof.
  assert (H : Parser.strip (pre +:+ "//" +:+ c1)
              = Parser.strip (pre +:+ "//" +:+ c2)).
  { destruct (index_str_comment pre) as (k & Hk & Hi).
    unfold Parser.strip, StdString.find_str, StdString.substr.
    rewrite !Hi. f_equal. unfold StdString.size.
    rewrite !string_length_app, !Z.sub_0_r.
    rewrite !Z.min_l by lia. rewrite Nat2Z.id.
    change (Z.to_nat 0) with O. cbn [StdString.drop].
    by rewrite !take_app_le. }
  split; [exact H|]. unfold line_command. by rewrite H.
Qed.

Lemma remove_if_no_space s : no_space (StdString.remove_if StdString.isspace s) = true.
Proof.
  induction s as [|a s IH]; [done|]. simpl.
  destruct (StdString.isspace a) eqn:E; [done|]. simpl. by rewrite E.
Qed.

Lemma remove_if_id s :
  no_space s = true → StdString.remove_if StdString.isspace s = s.
Proof.
  induction s as [|a s IH]; [done|]. simpl.
  intros [Ha Hs]%andb_true_iff. apply negb_true_iff in Ha. rewrite Ha.
  by rewrite IH.
Qed.

Lemma index_str_slash_free s :
  free_of "/" s → StdString.index_str "//" s = None.
Proof.
  unfold free_of. induction s as [|a s IH]; [done|].
  cbn [StdString.index_char]. destruct (Ascii.eqb a "/") eqn:E; [done|].
  destruct (StdString.index_char "/" s) eqn:Ei; [done|]. intros _.
  cbn [StdString.index_str]. rewrite prefix_slashes, E, IH by done.
  by destruct s.
Qed.

(** A line with no '/' is kept whole by the comment cut. *)
Lemma strip_slash_free s :
  StdString.size s < StdString.npos → free_of "/" s →
  Parser.strip s = StdString.remove_if StdString.isspace s.
Proof.
  intros Hs Hf. unfold Parser.strip, StdString.find_str.
  rewrite index_str_slash_free by done. by rewrite substr_whole by lia.
Qed.

Lemma index_str_first_comment x c :
  free_of "/" x →
  StdString.index_str "//" (x +:+ "//" +:+ c) = Some (String.length x).
Proof.
  unfold free_of. induction x as [|a x IH].
  - intros _. change ("" +:+ "//" +:+ c) with (String "/" (String "/" c)).
    cbn [StdString.index_str]. by rewrite prefix_slashes.
  - cbn [StdString.index_char]. destruct (Ascii.eqb a "/") eqn:E; [done|].
    destruct (StdString.index_char "/" x) eqn:Ei; [done|]. intros _.
    change (String a x +:+ "//" +:+ c) with (String a (x +:+ "//" +:+ c)).
    cbn [StdString.index_str]. rewrite prefix_slashes, E, IH by done.
    by destruct (x +:+ "//" +:+ c).
Qed.

Lemma strip_comment_cut x c :
  free_of "/" x →
  Parser.strip (x +:+ "//" +:+ c) = StdString.remove_if StdString.isspace x.
Proof.
  intros H. unfold Parser.strip, StdString.find_str.
  rewrite index_str_first_comment by done.
  by rewrite substr_prefix.
Qed.

Lemma remove_if_app P x y :
  StdString.remove_if P (x +:+ y)
  = StdString.remove_if P x +:+ StdString.remove_if P y.
Proof.
  induction x as [|a x IH]; [done|].
  change (String a x +:+ y) with (String a (x +:+ y)). simpl.
  rewrite IH. by destruct (P a).
Qed.

Lemma free_of_app c x y : free_of c x → free_of c y → free_of c (x +:+ y).
Proof.
  unfold free_of. intros Hx Hy. rewrite index_char_app by done. by rewrite Hy.
Qed.

Lemma blank_free_of c pad :
  StdString.isspace c = false →
  StdString.remove_if StdString.isspace pad = "" → free_of c pad.
Proof.
  unfold free_of. intros Hc. induction pad as [|a pad IH]; [done|].
  simpl. destruct (StdString.isspace a) eqn:Ea; [|done]. intros H.
  destruct (Ascii.eqb a c) eqn:E.
  - apply Ascii.eqb_eq in E. congruence.
  - by rewrite IH.
Qed.

(** X3: the stripped command never contains whitespace; a line without
    '/' and whitespace is its own stripped command, and so is such a line
    followed by whitespace and a comment. *)
Theorem strip_removes_whitespace (line s pad c : string) :
  no_space (Parser.strip line) = true
  ∧ (StdString.size s < StdString.npos → free_of "/" s →
     no_space s = true →
     StdString.remove_if StdString.isspace pad = "" →
     Parser.strip s = s ∧ Parser.strip (s +:+ pad +:+ "//" +:+ c) = s).
Proof.
  split; [apply remove_if_no_space|].
  intros Hs Hf Hn Hpad.
  split; [rewrite strip_slash_free by done; by apply remove_if_id|].
  rewrite <- string_app_assoc.
  rewrite strip_comment_cut
    by (apply free_of_app; [done | by apply blank_free_of]).
  by rewrite remove_if_app, Hpad, string_app_nil_r, remove_if_id.
Qed.

Lemma strip_removes_whitespace_witness :
  Parser.strip "D=M" = "D=M"
  ∧ Parser.strip ("D=M" +:+ "   " +:+ "//" +:+ " load") = "D=M".
Proof.
  apply (proj2 (strip_removes_whitespace "" "D=M" "   " " load")).
  - vm_compute. reflexivity.
  - vm_compute. reflexivity.
  - vm_compute. reflexivity.
  - vm_compute. reflexivity.
Defined.

(** ** Classification of address, label and compute lines *)

Lemma back_app_last x c : StdString.back (x +:+ String c "") = c.
Proof.
  induction x as [|a x IH]; [done|].
  change (String a x +:+ String c "") with (String a (x +:+ String c "")).
  cbn [StdString.back]. rewrite IH. by destruct x.
Qed.

Lemma front_app x y :
  StdString.front (x +:+ y)
  = match x with EmptyString => StdString.front y | String a _ => a end.
Proof. by destruct x. Qed.

Lemma classify_address s :
  StdString.size s < StdString.npos →
  classify (String "@" s) = AddressCommand s.
Proof.
  intros Hs. unfold classify, Parser.parseCommand, command_of.
  cbn [parser_at Parser.currentCommand StdString.front].
  rewrite Ascii.eqb_refl.
  cbn [Parser.getCommandType Parser.commandType Parser.getSymbol Parser.symbol].
  f_equal. apply (substr_split _ "@" s "").
  - by rewrite string_app_nil_r.
  - done.
  - unfold StdString.size, StdString.npos in *. simpl. lia.
Qed.

Lemma classify_label s :
  StdString.size s < StdString.npos →
  classify ("(" +:+ s +:+ ")") = LabelCommand s.
Proof.
  intros Hs. unfold classify, Parser.parseCommand, command_of.
  cbn [parser_at Parser.currentCommand].
  change ("(" +:+ s +:+ ")") with (String "(" (s +:+ ")")).
  cbn [StdString.front].
  change (Ascii.eqb "(" "@") with false. rewrite Ascii.eqb_refl.
  replace (StdString.back (String "(" (s +:+ ")"))) with ")"%char
    by (symmetry; apply (back_app_last (String "(" s) ")")).
  rewrite Ascii.eqb_refl.
  cbn [andb Parser.getCommandType Parser.commandType Parser.getSymbol
       Parser.symbol].
  f_equal. unfold StdString.size, StdString.npos in *.
  apply (substr_split _ "(" s ")"); [done | done |].
  cbn [String.length]. rewrite string_length_app. cbn [String.length].
  rewrite wrap_size_t_small by lia. lia.
Qed.

(** X4: a line starting with '@' is an address command whose operand is
    everything after the '@', whatever it contains; a line enclosed in
    '(' and ')' is a label command whose symbol is the text between them,
    the empty text included. *)
Theorem address_and_label_lines (s : string) :
  StdString.size s < StdString.npos →
  classify ("@" +:+ s) = AddressCommand s
  ∧ classify ("(" +:+ s +:+ ")") = LabelCommand s.
Proof.
  intros Hs. split; [by apply classify_address | by apply classify_label].
Qed.

Lemma address_and_label_lines_witness :
  classify ("@" +:+ "i=1;(x)") = AddressCommand "i=1;(x)"
  ∧ classify ("(" +:+ "" +:+ ")") = LabelCommand "".
Proof.
  split.
  - apply (address_and_label_lines "i=1;(x)"). vm_compute. reflexivity.
  - apply (address_and_label_lines ""). vm_compute. reflexivity.
Defined.

Lemma find_char_free cc c : free_of c cc → StdString.find_char cc c = StdString.npos.
Proof. unfold free_of, StdString.find_char. by intros ->. Qed.

Lemma classify_invalid cc :
  StdString.front cc ≠ "@"%char →
  ¬ (StdString.front cc = "("%char ∧ StdString.back cc = ")"%char) →
  free_of "=" cc → free_of ";" cc →
  classify cc = InvalidCommand.
Proof.
  intros Hat Hlab He Hs. unfold classify, Parser.parseCommand.
  cbn [parser_at Parser.currentCommand].
  rewrite (proj2 (Ascii.eqb_neq _ _) Hat).
  assert (Ascii.eqb (StdString.front cc) "("
          && Ascii.eqb (StdString.back cc) ")" = false) as ->.
  { apply not_true_is_false. intros [H1 H2]%andb_true_iff.
    apply Hlab. split; by apply Ascii.eqb_eq. }
  rewrite !find_char_free by done. by rewrite Z.eqb_refl.
Qed.

Lemma find_char_at x c y :
  StdString.size (x +:+ String c y) < StdString.npos →
  free_of c x →
  StdString.find_char (x +:+ String c y) c = Z.of_nat (String.length x).
Proof.
  intros _ Hx. unfold StdString.find_char. rewrite index_char_app by done.
  simpl. rewrite Ascii.eqb_refl. simpl. f_equal. lia.
Qed.

Lemma classify_plain cc :
  plain_front cc →
  classify cc
  = if negb (StdString.find_char cc "=" =? StdString.npos)
       || negb (StdString.find_char cc ";" =? StdString.npos)
    then command_of (Parser.parseCCommand (parser_at C_COMMAND cc))
    else InvalidCommand.
Proof.
  intros [Hat Hpar]. unfold classify, Parser.parseCommand.
  cbn [parser_at Parser.currentCommand].
  rewrite (proj2 (Ascii.eqb_neq _ _) Hat), (proj2 (Ascii.eqb_neq _ _) Hpar).
  cbn [andb]. by destruct (_ || _).
Qed.

(** The three shapes of a compute line. *)
Lemma classify_dest_comp_jump d c j :
  StdString.size (d +:+ "=" +:+ c +:+ ";" +:+ j) < StdString.npos →
  plain_front (d +:+ "=" +:+ c +:+ ";" +:+ j) →
  free_of "=" d → free_of ";" d → free_of ";" c →
  classify (d +:+ "=" +:+ c +:+ ";" +:+ j) = ComputeCommand d c j.
Proof.
  intros Hsize Hfront Hd1 Hd2 Hc.
  rewrite classify_plain by done.
  set (cc := d +:+ "=" +:+ c +:+ ";" +:+ j) in *.
  assert (Elen : String.length cc
                 = (String.length d + S (String.length c
                                          + S (String.length j)))%nat).
  { unfold cc. rewrite !string_length_app. simpl. lia. }
  unfold StdString.size, StdString.npos in Hsize.
  assert (Eeq : StdString.find_char cc "=" = Z.of_nat (String.length d)).
  { apply (find_char_at d "=" (c +:+ ";" +:+ j)); [|done].
    change (Z.of_nat (String.length cc) < 2 ^ 64 - 1). lia. }
  assert (Esemi : StdString.find_char cc ";"
                  = Z.of_nat (String.length d + S (String.length c))).
  { unfold cc.
    replace (d +:+ "=" +:+ c +:+ ";" +:+ j)
      with ((d +:+ "=" +:+ c) +:+ String ";" j)
      by (by rewrite !string_app_assoc).
    rewrite find_char_at.
    - rewrite !string_length_app. simpl. f_equal.
    - replace ((d +:+ "=" +:+ c) +:+ String ";" j) with cc
        by (unfold cc; by rewrite !string_app_assoc).
      unfold StdString.size, StdString.npos. lia.
    - apply free_of_app; [done|]. apply (free_of_app _ "=" c); done. }
  unfold Parser.parseCCommand, command_of.
  cbn [parser_at Parser.currentCommand]. rewrite Eeq, Esemi.
  assert ((Z.of_nat (String.length d) =? StdString.npos) = false) as ->
    by (apply Z.eqb_neq; unfold StdString.npos; lia).
  assert ((Z.of_nat (String.length d + S (String.length c))
           =? StdString.npos) = false) as ->
    by (apply Z.eqb_neq; unfold StdString.npos; lia).
  cbn [negb orb Parser.getCommandType Parser.commandType Parser.getDest
       Parser.getComp Parser.getJump Parser.dest Parser.comp Parser.jump].
  rewrite !wrap_size_t_small by lia.
  f_equal.
  - apply (substr_split _ "" d ("=" +:+ c +:+ ";" +:+ j)); [done | done |].
    lia.
  - apply (substr_split _ (d +:+ "=") c (String ";" j)).
    + unfold cc. by rewrite !string_app_assoc.
    + rewrite string_length_app. simpl. lia.
    + cbn [String.length]. lia.
  - apply (substr_split _ (d +:+ "=" +:+ c +:+ ";") j "").
    + unfold cc. by rewrite string_app_nil_r, !string_app_assoc.
    + rewrite !string_length_app. simpl. lia.
    + unfold StdString.npos. cbn [String.length]. lia.
Qed.

Lemma classify_dest_comp d c :
  StdString.size (d +:+ "=" +:+ c) < StdString.npos →
  plain_front (d +:+ "=" +:+ c) →
  free_of "=" d → free_of ";" d → free_of ";" c →
  classify (d +:+ "=" +:+ c) = ComputeCommand d c "".
Proof.
  intros Hsize Hfront Hd1 Hd2 Hc.
  rewrite classify_plain by done.
  set (cc := d +:+ "=" +:+ c) in *.
  assert (Elen : String.length cc
                 = (String.length d + S (String.length c))%nat).
  { unfold cc. rewrite !string_length_app. simpl. lia. }
  unfold StdString.size, StdString.npos in Hsize.
  assert (Eeq : StdString.find_char cc "=" = Z.of_nat (String.length d)).
  { apply (find_char_at d "=" c); [|done].
    change (Z.of_nat (String.length cc) < 2 ^ 64 - 1). lia. }
  assert (Esemi : StdString.find_char cc ";" = StdString.npos).
  { apply find_char_free, free_of_app; [done|].
    apply (free_of_app _ "=" c); done. }
  unfold Parser.parseCCommand, command_of.
  cbn [parser_at Parser.currentCommand]. rewrite Eeq, Esemi.
  assert ((Z.of_nat (String.length d) =? StdString.npos) = false) as ->
    by (apply Z.eqb_neq; unfold StdString.npos; lia).
  rewrite Z.eqb_refl.
  cbn [negb orb Parser.getCommandType Parser.commandType Parser.getDest
       Parser.getComp Parser.getJump Parser.dest Parser.comp Parser.jump].
  rewrite !wrap_size_t_small by (unfold StdString.npos; lia).
  f_equal.
  - apply (substr_split _ "" d ("=" +:+ c)); [done | done |]. lia.
  - apply (substr_split _ (d +:+ "=") c "").
    + unfold cc. by rewrite string_app_nil_r, !string_app_assoc.
    + rewrite string_length_app. simpl. lia.
    + unfold StdString.npos. cbn [String.length]. lia.
Qed.

Lemma classify_comp_jump c j :
  StdString.size (c +:+ ";" +:+ j) < StdString.npos →
  plain_front (c +:+ ";" +:+ j) →
  free_of "=" c → free_of ";" c → free_of "=" j →
  classify (c +:+ ";" +:+ j) = ComputeCommand "" c j.
Proof.
  intros Hsize Hfront Hc1 Hc2 Hj.
  rewrite classify_plain by done.
  set (cc := c +:+ ";" +:+ j) in *.
  assert (Elen : String.length cc
                 = (String.length c + S (String.length j))%nat).
  { unfold cc. rewrite !string_length_app. simpl. lia. }
  unfold StdString.size, StdString.npos in Hsize.
  assert (Esemi : StdString.find_char cc ";" = Z.of_nat (String.length c)).
  { apply (find_char_at c ";" j); [|done].
    change (Z.of_nat (String.length cc) < 2 ^ 64 - 1). lia. }
  assert (Eeq : StdString.find_char cc "=" = StdString.npos).
  { apply find_char_free, free_of_app; [done|].
    apply (free_of_app _ ";" j); done. }
  unfold Parser.parseCCommand, command_of.
  cbn [parser_at Parser.currentCommand]. rewrite Eeq, Esemi.
  assert ((Z.of_nat (String.length c) =? StdString.npos) = false) as ->
    by (apply Z.eqb_neq; unfold StdString.npos; lia).
  rewrite Z.eqb_refl.
  cbn [negb orb Parser.getCommandType Parser.commandType Parser.getDest
       Parser.getComp Parser.getJump Parser.dest Parser.comp Parser.jump].
  rewrite !wrap_size_t_small by lia.
  f_equal.
  - apply (substr_split _ "" c (";" +:+ j)); [done | done |]. lia.
  - apply (substr_split _ (c +:+ ";") j "").
    + unfold cc. by rewrite string_app_nil_r, !string_app_assoc.
    + rewrite string_length_app. simpl. lia.
    + unfold StdString.npos. cbn [String.length]. lia.
Qed.

Lemma plain_front_app x a y z :
  plain_front (x +:+ String a y) → plain_front (x +:+ String a z).
Proof. unfold plain_front. rewrite !front_app. by destruct x. Qed.

(** X5: writing a compute command in one of its three shapes and parsing
    it gives the fields back: dest=comp;jump, dest=comp (empty jump) and
    comp;jump (empty destination), for fields that do not contain the
    separators and a line that does not start with '@' or '('. *)
Theorem compute_line_roundtrip (d c j : string) :
  StdString.size (d +:+ "=" +:+ c +:+ ";" +:+ j) < StdString.npos →
  plain_front (d +:+ "=") → plain_front (c +:+ ";") →
  free_of "=" d → free_of ";" d →
  free_of "=" c → free_of ";" c → free_of "=" j →
  classify (d +:+ "=" +:+ c +:+ ";" +:+ j) = ComputeCommand d c j
  ∧ classify (d +:+ "=" +:+ c) = ComputeCommand d c ""
  ∧ classify (c +:+ ";" +:+ j) = ComputeCommand "" c j.
Proof.
  intros Hsize Hfd Hfc Hd1 Hd2 Hc1 Hc2 Hj.
  unfold StdString.size in Hsize.
  rewrite !string_length_app in Hsize. cbn [String.length] in Hsize.
  split; [|split].
  - apply classify_dest_comp_jump; try done.
    + unfold StdString.size. rewrite !string_length_app.
      cbn [String.length]. lia.
    + by apply (plain_front_app d "=" "").
  - apply classify_dest_comp; try done.
    + unfold StdString.size. rewrite !string_length_app.
      cbn [String.length]. lia.
    + by apply (plain_front_app d "=" "").
  - apply classify_comp_jump; try done.
    + unfold StdString.size. rewrite !string_length_app.
      cbn [String.length]. lia.
    + by apply (plain_front_app c ";" "").
Qed.

Lemma compute_line_roundtrip_witness :
  classify ("MD" +:+ "=" +:+ "D+1" +:+ ";" +:+ "JGT")
  = ComputeCommand "MD" "D+1" "JGT"
  ∧ classify ("MD" +:+ "=" +:+ "D+1") = ComputeCommand "MD" "D+1" ""
  ∧ classify ("D+1" +:+ ";" +:+ "JGT") = ComputeCommand "" "D+1" "JGT".
Proof.
  apply (compute_line_roundtrip "MD" "D+1" "JGT").
  - vm_compute. reflexivity.
  - split; vm_compute; discriminate.
  - split; vm_compute; discriminate.
  - vm_compute. reflexivity.
  - vm_compute. reflexivity.
  - vm_compute. reflexivity.
  - vm_compute. reflexivity.
  - vm_compute. reflexivity.
Defined.

(** ** Pass 2, line by line *)

Lemma code_answers_new : code_answers Code.new.
Proof. by intros f m. Qed.

Lemma map_subscript_default (m : gmap string string) k k' :
  default "" ((map_subscript "" m k).2 !! k') = default "" (m !! k').
Proof.
  unfold map_subscript. destruct (m !! k) eqn:E; simpl; [done|].
  destruct (decide (k = k')) as [<-|Hne].
  - by rewrite lookup_insert_eq, E.
  - by rewrite lookup_insert_ne.
Qed.

Lemma map_subscript_value (m : gmap string string) k :
  (map_subscript "" m k).1 = default "" (m !! k).
Proof. unfold map_subscript. by destruct (m !! k). Qed.

Lemma encode_field_answers f m c :
  code_answers c →
  (encode_field f m c).1 = field_bits f m
  ∧ code_answers (encode_field f m c).2.
Proof.
  intros H. split.
  - rewrite <- H.
    destruct f; simpl; unfold Code.dest, Code.comp, Code.jump;
      destruct (map_subscript _ _ _) as [v tb] eqn:E; simpl;
      change v with (v, tb).1; rewrite <- E; apply map_subscript_value.
  - intros g k. rewrite <- H.
    destruct f, g; simpl; unfold Code.dest, Code.comp, Code.jump;
      destruct (map_subscript _ _ _) as [v tb] eqn:E; simpl; try done;
      change tb with (v, tb).2; rewrite <- E; apply map_subscript_default.
Qed.

Lemma encodeC_answers d c j cd :
  code_answers cd →
  (Assembler.encodeC d c j cd).1
  = "111" +:+ field_bits Comp c +:+ field_bits Dest d +:+ field_bits Jump j
  ∧ code_answers (Assembler.encodeC d c j cd).2.
Proof.
  intros H. rewrite encodeC_eq.
  destruct (encode_field_answers Dest d cd H) as [E1 H1].
  destruct (encode_field_answers Comp c _ H1) as [E2 H2].
  destruct (encode_field_answers Jump j _ H2) as [E3 H3].
  cbv zeta. cbn [fst snd]. by rewrite E1, E2, E3.
Qed.

(** Pass 2 keeps every binding it finds. *)
Lemma secondPass_on_bindings cs : ∀ a,
  SymbolTable.table (Assembler.symbolTable a)
  ⊆ SymbolTable.table (Assembler.symbolTable (secondPass_on cs a).2).
Proof.
  induction cs as [|c cs IH]; intros a; [done|].
  destruct c as [sym|d c j|sym|]; cbn [secondPass_on].
  - unfold Assembler.resolve.
    destruct (StdString.isdigit (StdString.front sym)).
    + destruct (StdString.stoi sym); [|done].
      specialize (IH {| Assembler.symbolTable := Assembler.symbolTable a;
                        Assembler.code := Assembler.code a |}).
      by destruct (secondPass_on cs _) as [[out s] a'].
    + destruct (SymbolTable.addVariable sym _) as [v st] eqn:E.
      specialize (IH {| Assembler.symbolTable := st;
                        Assembler.code := Assembler.code a |}).
      destruct (secondPass_on cs _) as [[out s] a']. cbn [fst snd] in *.
      etrans; [|exact IH]. cbn [Assembler.symbolTable].
      apply map_subseteq_spec. intros k w Hk.
      change st with (v, st).2. rewrite <- E.
      by apply addVariable_preserves.
  - destruct (Assembler.encodeC _ _ _ _) as [line cd].
    specialize (IH {| Assembler.symbolTable := Assembler.symbolTable a;
                      Assembler.code := cd |}).
    by destruct (secondPass_on cs _) as [[out s] a'].
  - apply IH.
  - apply IH.
Qed.

Lemma addVariable_lookup sym st :
  SymbolTable.table (SymbolTable.addVariable sym st).2 !! sym
  = Some (SymbolTable.addVariable sym st).1.
Proof.
  destruct (SymbolTable.table st !! sym) as [v|] eqn:E.
  - by rewrite (SymbolTableFacts.addVariable_bound _ _ v).
  - rewrite SymbolTableFacts.addVariable_unbound by done. simpl.
    apply lookup_insert_eq.
Qed.

Lemma secondPass_on_lines cs : ∀ a out a2,
  code_answers (Assembler.code a) →
  secondPass_on cs a = (out, Assembler.Returned, a2) →
  out = omap (emitted_line (SymbolTable.table (Assembler.symbolTable a2))) cs.
Proof.
  induction cs as [|c cs IH]; intros a out a2 Hc H.
  - simpl in H. by injection H as <- _.
  - destruct c as [sym|d c j|sym|]; cbn [secondPass_on] in H;
      cbn [omap list_omap emitted_line].
    + unfold Assembler.resolve in H.
      destruct (StdString.isdigit (StdString.front sym)).
      * unfold StdString.stoi in H. cbv zeta in H.
        destruct (StdString.digits_value 0 sym <=? INT_MAX); [|done].
        destruct (secondPass_on cs _) as [[out' s'] a'] eqn:E.
        injection H as <- -> ->. f_equal.
        eapply IH; [|exact E]. exact Hc.
      * destruct (SymbolTable.addVariable sym _) as [v st] eqn:Ea.
        pose proof (secondPass_on_bindings cs
                      {| Assembler.symbolTable := st;
                         Assembler.code := Assembler.code a |}) as Hsub.
        destruct (secondPass_on cs _) as [[out' s'] a'] eqn:E.
        injection H as <- -> ->. cbn [fst snd Assembler.symbolTable] in Hsub.
        assert (Hv : SymbolTable.table st !! sym = Some v).
        { change st with (v, st).2. change v with (v, st).1 at 2.
          rewrite <- Ea. apply addVariable_lookup. }
        rewrite (lookup_weaken _ _ _ _ Hv Hsub). cbn [default].
        f_equal. eapply IH; [|exact E]. exact Hc.
    + destruct (encodeC_answers d c j _ Hc) as [El Hc'].
      destruct (Assembler.encodeC _ _ _ _) as [line cd]. cbn [fst snd] in *.
      destruct (secondPass_on cs _) as [[out' s'] a'] eqn:E.
      injection H as <- -> ->. subst line. f_equal.
      eapply IH; [|exact E]. exact Hc'.
    + by eapply IH.
    + by eapply IH.
Qed.

(** X6: when a run returns, every line of the output is a function of the
    command reported at that point and of the symbol table the run ends
    with: an address literal is encoded from its digits, a symbol from its
    final binding, a compute command from the tables the constructor built.
    Earlier lookups (which insert entries for unknown mnemonics and new
    variables) never change how a later command is encoded. *)
Theorem output_line_by_line (u1 u2 : CommandType) (input : string)
    (out : list string) (a2 : Assembler.t) :
  Assembler.assemble u1 u2 input Assembler.new
  = (out, Assembler.Returned, a2) →
  out = omap (emitted_line (SymbolTable.table (Assembler.symbolTable a2)))
             (reported_commands u2 input).
Proof.
  unfold Assembler.assemble. rewrite secondPass_commands. intros H.
  eapply secondPass_on_lines; [|exact H].
  unfold Assembler.firstPass. rewrite firstPass_run_commands.
  rewrite firstPass_step_code. apply code_answers_new.
Qed.

Lemma output_line_by_line_witness :
  let input := "@i" +:+ LF +:+ "D=X" +:+ LF +:+ "(L)" +:+ LF +:+ "@7" in
  let r := Assembler.assemble INVALID_COMMAND INVALID_COMMAND input
             Assembler.new in
  r.1.2 = Assembler.Returned
  ∧ r.1.1 = omap (emitted_line
                    (SymbolTable.table (Assembler.symbolTable r.2)))
                 (reported_commands INVALID_COMMAND input).
Proof.
  intros input r.
  assert (Hs : r.1.2 = Assembler.Returned) by (vm_compute; reflexivity).
  split; [exact Hs|].
  apply (output_line_by_line INVALID_COMMAND INVALID_COMMAND input).
  rewrite <- Hs. subst r.
  by destruct (Assembler.assemble _ _ _ _) as [[out s] a2].
Defined.






(** Pass 2 over a concatenation of command lists. *)
Lemma secondPass_on_app cs1 : ∀ cs2 a,
  secondPass_on (cs1 ++ cs2)%list a
  = let '(out1, s1, a1) := secondPass_on cs1 a in
    match s1 with
    | Assembler.Returned =>
        let '(out2, s2, a2) := secondPass_on cs2 a1 in
        ((out1 ++ out2)%list, s2, a2)
    | Assembler.Threw => (out1, Assembler.Threw, a1)
    end.
Proof.
  induction cs1 as [|c cs1 IH]; intros cs2 a.
  - simpl. by destruct (secondPass_on cs2 a) as [[out2 s2] a2].
  - destruct c as [sym|d c j|sym|]; cbn [app secondPass_on].
    + destruct (Assembler.resolve sym _) as [[address st]|]; [|done].
      rewrite IH. destruct (secondPass_on cs1 _) as [[out1 s1] a1].
      destruct s1; [|done].
      by destruct (secondPass_on cs2 a1) as [[out2 s2] a2].
    + destruct (Assembler.encodeC _ _ _ _) as [line cd].
      rewrite IH. destruct (secondPass_on cs1 _) as [[out1 s1] a1].
      destruct s1; [|done].
      by destruct (secondPass_on cs2 a1) as [[out2 s2] a2].
    + apply IH.
    + apply IH.
Qed.

Lemma secondPass_on_status_cons c cs a :
  overflows c = false →
  ∃ a', (secondPass_on (c :: cs) a).1.2 = (secondPass_on cs a').1.2.
Proof.
  intros Hc. destruct c as [sym|d c j|sym|]; cbn [secondPass_on].
  - unfold Assembler.resolve, StdString.stoi. cbn [overflows] in Hc.
    destruct (StdString.isdigit (StdString.front sym)).
    + cbn [andb] in Hc. apply Z.ltb_ge in Hc.
      cbv zeta. rewrite (proj2 (Z.leb_le _ _) Hc).
      exists {| Assembler.symbolTable := Assembler.symbolTable a;
                Assembler.code := Assembler.code a |}.
      by destruct (secondPass_on cs _) as [[out s] a'].
    + destruct (SymbolTable.addVariable sym _) as [v st].
      exists {| Assembler.symbolTable := st;
                Assembler.code := Assembler.code a |}.
      by destruct (secondPass_on cs _) as [[out s] a'].
  - destruct (Assembler.encodeC _ _ _ _) as [line cd].
    exists {| Assembler.symbolTable := Assembler.symbolTable a;
              Assembler.code := cd |}.
    by destruct (secondPass_on cs _) as [[out s] a'].
  - by exists a.
  - by exists a.
Qed.

Lemma secondPass_on_overflow c cs a :
  overflows c = true → secondPass_on (c :: cs) a = ([], Assembler.Threw, a).
Proof.
  destruct c as [sym|d c j|sym|]; try done. cbn [overflows secondPass_on].
  intros [Hd Hv]%andb_true_iff. unfold Assembler.resolve, StdString.stoi.
  rewrite Hd. cbv zeta. apply Z.ltb_lt in Hv.
  by rewrite (proj2 (Z.leb_gt _ _) Hv).
Qed.

Lemma secondPass_on_returns cs : ∀ a,
  (secondPass_on cs a).1.2 = Assembler.Returned
  ↔ Forall (λ c, overflows c = false) cs.
Proof.
  induction cs as [|c cs IH]; intros a; [by split|].
  destruct (overflows c) eqn:Ec.
  - rewrite secondPass_on_overflow by done. split; [done|].
    intros [H _]%Forall_cons. congruence.
  - destruct (secondPass_on_status_cons c cs a Ec) as [a' ->].
    rewrite IH. split; [by constructor | by intros [_ H]%Forall_cons].
Qed.

(** X8: a run returns exactly when no address command given to pass 2 is
    a literal (an operand starting with a digit) whose value exceeds
    INT_MAX; otherwise the [std::out_of_range] that [std::stoi] throws
    escapes from [secondPass]. *)
Theorem literal_overflow_aborts (u1 u2 : CommandType) (input : string) :
  (Assembler.assemble u1 u2 input Assembler.new).1.2 = Assembler.Returned
  ↔ Forall (λ c, overflows c = false) (reported_commands u2 input).
Proof.
  unfold Assembler.assemble. rewrite secondPass_commands.
  apply secondPass_on_returns.
Qed.

(** ** Labels, pass 1 and the lines of the source *)




(** X10: with both parsers starting alike, a label is bound to the number
    of lines pass 2 writes before it reaches the (last) declaration of the
    label: the label names the position in the output of the first
    instruction written after it, blank lines or not. *)
Theorem label_is_output_index (u : CommandType) (input : string)
    (pre post : list Command) (sym : string) (out : list string)
    (a2 : Assembler.t) :
  let a1 := Assembler.firstPass u input Assembler.new in
  reported_commands u input = (pre ++ LabelCommand sym :: post)%list →
  LabelCommand sym ∉ post →
  Assembler.secondPass u input a1 = (out, Assembler.Returned, a2) →
  Z.of_nat (List.length out) ≤ INT_MAX →
  ∃ out1 out2,
    out = (out1 ++ out2)%list
    ∧ (secondPass_on pre a1).1 = (out1, Assembler.Returned)
    ∧ SymbolTable.table (Assembler.symbolTable a1) !! sym
      = Some (Z.of_nat (List.length out1))
    ∧ SymbolTable.table (Assembler.symbolTable a2) !! sym
      = Some (Z.of_nat (List.length out1)).
Proof.
  intros a1 E Hlast Hrun Hfit.
  pose proof (secondPass_on_bindings (reported_commands u input) a1) as Hsub.
  rewrite secondPass_commands in Hrun. rewrite Hrun in Hsub.
  cbn [snd] in Hsub. rewrite E in Hrun.
  rewrite secondPass_on_app in Hrun.
  destruct (secondPass_on pre a1) as [[out1 s1] a1'] eqn:E1.
  destruct s1; [|done].
  cbn [secondPass_on] in Hrun.
  destruct (secondPass_on post a1') as [[out2 s2] a2'] eqn:E2.
  injection Hrun as <- -> ->.
  exists out1, out2. split; [done|]. split; [done|].
  pose proof (secondPass_on_length _ _ _ _ E1) as Hlen.
  assert (H1 : SymbolTable.table (Assembler.symbolTable a1) !! sym
               = Some (Z.of_nat (List.length out1))).
  { unfold a1, Assembler.firstPass. rewrite firstPass_run_commands, E.
    rewrite foldl_app. cbn [foldl firstPass_step].
    apply firstPass_step_keeps; [done|]. cbn [snd Assembler.symbolTable].
    cbn [SymbolTable.addEntry SymbolTable.table].
    rewrite lookup_insert_eq. f_equal.
    rewrite length_app in Hfit.
    rewrite firstPass_rom; unfold INT_MAX in *; lia. }
  split; [exact H1|]. by eapply lookup_weaken.
Qed.

Lemma label_is_output_index_witness :
  let input := "@1" +:+ LF +:+ LF +:+ "(L)" +:+ LF +:+ "@L" in
  let a1 := Assembler.firstPass INVALID_COMMAND input Assembler.new in
  (Assembler.secondPass INVALID_COMMAND input a1).1.1
  = ["0000000000000001"; "0000000000000001"; "0000000000000010"]
  ∧ SymbolTable.table (Assembler.symbolTable a1) !! "L" = Some 2.
Proof.
  intros input a1.
  assert (E : reported_commands INVALID_COMMAND input
              = ([AddressCommand "1"; AddressCommand "1"]
                 ++ LabelCommand "L" :: [AddressCommand "L"])%list)
    by (vm_compute; reflexivity).
  destruct (Assembler.secondPass INVALID_COMMAND input a1)
    as [[out s] a2] eqn:Er.
  assert (Hout : out = ["0000000000000001"; "0000000000000001";
                        "0000000000000010"]).
  { change out with (out, s, a2).1.1. rewrite <- Er. vm_compute. reflexivity. }
  assert (Hs : s = Assembler.Returned).
  { change s with (out, s, a2).1.2. rewrite <- Er. vm_compute. reflexivity. }
  subst s. split; [exact Hout|].
  destruct (label_is_output_index INVALID_COMMAND input _ _ "L" out a2 E)
    as (out1 & out2 & _ & Hpre & H1 & _).
  - intros Hin. apply elem_of_cons in Hin as [Hin|Hin]; [discriminate Hin|].
    by apply elem_of_nil in Hin.
  - exact Er.
  - rewrite Hout. vm_compute. discriminate.
  - fold a1 in H1, Hpre. rewrite H1. f_equal.
    assert (Ho1 : out1 = ["0000000000000001"; "0000000000000001"]).
    { change out1 with (out1, Assembler.Returned).1. rewrite <- Hpre.
      vm_compute. reflexivity. }
    by rewrite Ho1.
Defined.

Lemma reported_length lines : ∀ last,
  List.length (reported last lines) = List.length lines.
Proof.
  induction lines as [|l lines IH]; intros last; [done|].
  simpl. by rewrite IH.
Qed.

Lemma reported_lookup lines : ∀ last i l,
  lines !! i = Some l →
  reported last lines !! i
  = Some (from_option id
            (match i with
             | O => last
             | S k => default last (reported last lines !! k)
             end)
            (line_command l)).
Proof.
  induction lines as [|l0 lines IH]; intros last i l Hi; [done|].
  destruct i as [|i].
  - simpl in Hi. injection Hi as ->. done.
  - simpl in Hi. cbn [reported]. rewrite lookup_cons.
    rewrite (IH _ i l Hi). f_equal. f_equal.
    destruct i as [|k]; [done|]. rewrite lookup_cons.
    destruct (reported _ lines !! k) eqn:E; [done|].
    apply lookup_ge_None in E. rewrite reported_length in E.
    apply lookup_lt_Some in Hi. lia.
Qed.

(** X11: each pass is given one command per segment of the stream: the
    command of that segment, or, when the segment strips to nothing, the
    command given for the segment before it (for the first segment: the
    command the freshly constructed parser holds). *)
Theorem blank_segment_repeats_command (u : CommandType) (input : string)
    (i : nat) (l : string) :
  StdString.getlines input !! i = Some l →
  List.length (reported_commands u input)
  = List.length (StdString.getlines input)
  ∧ reported_commands u input !! i
    = Some (from_option id
              (match i with
               | O => initial_command u
               | S k => default (initial_command u)
                                (reported_commands u input !! k)
               end)
              (line_command l)).
Proof.
  intros Hi. rewrite reported_commands_lines.
  split; [apply reported_length | by apply reported_lookup].
Qed.

Lemma blank_segment_repeats_command_witness :
  let input := "D=A" +:+ LF +:+ "  // note" +:+ LF +:+ "@1" in
  StdString.getlines input !! 1%nat = Some "  // note"
  ∧ reported_commands INVALID_COMMAND input !! 1%nat
    = Some (ComputeCommand "D" "A" "").
Proof.
  intros input.
  assert (H : StdString.getlines input !! 1%nat = Some "  // note")
    by (vm_compute; reflexivity).
  split; [exact H|].
  rewrite (proj2 (blank_segment_repeats_command INVALID_COMMAND input 1 _ H)).
  vm_compute. reflexivity.
Defined.

Lemma reported_same_commands lines1 : ∀ lines2 last,
  Forall2 (λ l1 l2, line_command l1 = line_command l2) lines1 lines2 →
  reported last lines1 = reported last lines2.
Proof.
  induction lines1 as [|l1 lines1 IH]; intros lines2 last H.
  - by apply Forall2_nil_inv_l in H as ->.
  - apply Forall2_cons_inv_l in H as (l2 & lines2' & Hl & H & ->).
    simpl. rewrite Hl. f_equal. by apply IH.
Qed.

(** X12: the translation depends on the source only through its stripped
    lines: two sources whose segments agree after removal of comments and
    whitespace give the same output, the same outcome and the same final
    tables. *)
Theorem translation_of_stripped_lines (u1 u2 : CommandType)
    (input1 input2 : string) (a : Assembler.t) :
  Forall2 (λ l1 l2, Parser.strip l1 = Parser.strip l2)
          (StdString.getlines input1) (StdString.getlines input2) →
  Assembler.assemble u1 u2 input1 a = Assembler.assemble u1 u2 input2 a.
Proof.
  intros H.
  assert (E : ∀ u, reported_commands u input1 = reported_commands u input2).
  { intros u. rewrite !reported_commands_lines.
    apply reported_same_commands.
    eapply Forall2_impl; [exact H|].
    intros l1 l2 Hl. unfold line_command. by rewrite Hl. }
  unfold Assembler.assemble, Assembler.firstPass.
  by rewrite !secondPass_commands, !firstPass_run_commands, !E.
Qed.

Lemma translation_of_stripped_lines_witness :
  Assembler.assemble INVALID_COMMAND INVALID_COMMAND
    ("@ 1  // one" +:+ LF +:+ " D = A ") Assembler.new
  = Assembler.assemble INVALID_COMMAND INVALID_COMMAND
      ("@1" +:+ LF +:+ "D=A// two") Assembler.new.
Proof.
  apply translation_of_stripped_lines.
  assert (E1 : StdString.getlines ("@ 1  // one" +:+ LF +:+ " D = A ")
               = ["@ 1  // one"; " D = A "]) by (vm_compute; reflexivity).
  assert (E2 : StdString.getlines ("@1" +:+ LF +:+ "D=A// two")
               = ["@1"; "D=A// two"]) by (vm_compute; reflexivity).
  rewrite E1, E2.
  repeat (constructor; [vm_compute; reflexivity|]). constructor.
Defined.

Lemma secondPass_on_length_le cs : ∀ a,
  (List.length (secondPass_on cs a).1.1 ≤ List.length cs)%nat.
Proof.
  induction cs as [|c cs IH]; intros a; [done|].
  destruct c as [sym|d c j|sym|]; cbn [secondPass_on].
  - destruct (Assembler.resolve sym _) as [[address st]|]; [|simpl; lia].
    specialize (IH {| Assembler.symbolTable := st;
                      Assembler.code := Assembler.code a |}).
    destruct (secondPass_on cs _) as [[out s] a']. simpl in *. lia.
  - destruct (Assembler.encodeC _ _ _ _) as [line cd].
    specialize (IH {| Assembler.symbolTable := Assembler.symbolTable a;
                      Assembler.code := cd |}).
    destruct (secondPass_on cs _) as [[out s] a']. simpl in *. lia.
  - specialize (IH a). simpl. lia.
  - specialize (IH a). simpl. lia.
Qed.

(** X13: whatever the source, a run writes at most one line per segment
    of the input stream. *)
Theorem output_at_most_one_line_per_segment (u1 u2 : CommandType)
    (input : string) :
  (List.length (Assembler.output u1 u2 input)
   ≤ List.length (StdString.getlines input))%nat.
Proof.
  unfold Assembler.output, Assembler.assemble.
  rewrite secondPass_commands.
  etrans; [apply secondPass_on_length_le|].
  by rewrite reported_commands_lines, reported_length.
Qed.

Lemma last_default {A} (l : list A) : ∀ x d d',
  List.last (x :: l) d = List.last (x :: l) d'.
Proof.
  induction l as [|y l IH]; intros x d d'; [done|].
  change (List.last (y :: l) d = List.last (y :: l) d'). apply IH.
Qed.

Lemma reported_app lines1 : ∀ lines2 last,
  reported last (lines1 ++ lines2)%list
  = (reported last lines1
     ++ reported (List.last (reported last lines1) last) lines2)%list.
Proof.
  induction lines1 as [|l lines1 IH]; intros lines2 last; [done|].
  cbn [app reported]. rewrite IH. cbn [app]. f_equal. f_equal.
  set (c := from_option id last (line_command l)).
  destruct (reported c lines1) as [|x r]; [done|].
  change (List.last (c :: x :: r) last) with (List.last (x :: r) last).
  by rewrite (last_default r x c last).
Qed.

Lemma reported_first_not_blank lines last last' :
  match lines with
  | [] => True
  | l :: _ => is_Some (line_command l)
  end →
  reported last lines = reported last' lines.
Proof.
  destruct lines as [|l lines]; [done|]. intros [c Hc].
  cbn [reported]. by rewrite Hc.
Qed.

(** X14: a line that is classified invalid has no effect on the
    translation, provided the line after it is not blank: the source with
    the line and the source without it give the same output and the same
    final tables. *)
Theorem invalid_line_has_no_effect (u1 u2 : CommandType)
    (input1 input2 : string) (pre post : list string) (l : string)
    (a : Assembler.t) :
  StdString.getlines input1 = (pre ++ l :: post)%list →
  StdString.getlines input2 = (pre ++ post)%list →
  line_command l = Some InvalidCommand →
  match post with
  | [] => True
  | l' :: _ => is_Some (line_command l')
  end →
  Assembler.assemble u1 u2 input1 a = Assembler.assemble u1 u2 input2 a.
Proof.
  intros E1 E2 Hl Hpost.
  assert (E : ∀ u, ∃ cs1 cs2,
             reported_commands u input1 = (cs1 ++ InvalidCommand :: cs2)%list
             ∧ reported_commands u input2 = (cs1 ++ cs2)%list).
  { intros u. rewrite !reported_commands_lines, E1, E2, !reported_app.
    exists (reported (initial_command u) pre),
           (reported InvalidCommand post).
    cbn [reported]. rewrite Hl. cbn [from_option id].
    split; [done|]. f_equal. by apply reported_first_not_blank. }
  unfold Assembler.assemble, Assembler.firstPass.
  rewrite !secondPass_commands, !firstPass_run_commands.
  destruct (E u1) as (p1 & q1 & -> & ->).
  destruct (E u2) as (p2 & q2 & -> & ->).
  rewrite !foldl_app. cbn [foldl firstPass_step].
  by rewrite !secondPass_on_app.
Qed.

Lemma invalid_line_has_no_effect_witness :
  Assembler.assemble INVALID_COMMAND INVALID_COMMAND
    ("@1" +:+ LF +:+ "D+1" +:+ LF +:+ "D=A") Assembler.new
  = Assembler.assemble INVALID_COMMAND INVALID_COMMAND
      ("@1" +:+ LF +:+ "D=A") Assembler.new.
Proof.
  apply (invalid_line_has_no_effect _ _ _ _ ["@1"] ["D=A"] "D+1").
  - vm_compute. reflexivity.
  - vm_compute. reflexivity.
  - vm_compute. reflexivity.
  - eexists. vm_compute. reflexivity.
Defined.

Lemma blank_free_output_count_witness :
  let input := "(LOOP)" +:+ LF +:+ "@LOOP" +:+ LF +:+ "0;JMP" in
  blank_free (StdString.getlines input)
  ∧ List.length (Assembler.output INVALID_COMMAND INVALID_COMMAND input)
    = 2%nat.
Proof.
  intros input.
  assert (Hb : blank_free (StdString.getlines input)).
  { assert (E : StdString.getlines input = ["(LOOP)"; "@LOOP"; "0;JMP"])
      by (vm_compute; reflexivity).
    rewrite E.
    repeat (constructor; [eexists; vm_compute; reflexivity|]). constructor. }
  split; [exact Hb|].
  destruct (Assembler.assemble INVALID_COMMAND INVALID_COMMAND input
              Assembler.new) as [[out s] a'] eqn:E.
  assert (Hs : s = Assembler.Returned).
  { change s with (out, s, a').1.2. rewrite <- E. vm_compute. reflexivity. }
  subst s. unfold Assembler.output. rewrite E. cbn [fst].
  rewrite (blank_free_output_count _ _ _ _ _ Hb E).
  vm_compute. reflexivity.
Defined.

Lemma blank_free_label_address_witness :
  let input := "@1" +:+ LF +:+ "(L)" +:+ LF +:+ "@L" in
  blank_free (StdString.getlines input)
  ∧ SymbolTable.table
      (Assembler.symbolTable
         (Assembler.firstPass INVALID_COMMAND input Assembler.new))
    !! "L" = Some 1.
Proof.
  intros input.
  assert (E : StdString.getlines input = (["@1"] ++ "(L)" :: ["@L"])%list)
    by (vm_compute; reflexivity).
  assert (Hb : blank_free (StdString.getlines input)).
  { rewrite E.
    repeat (constructor; [eexists; vm_compute; reflexivity|]). constructor. }
  split; [exact Hb|].
  rewrite (blank_free_label_address INVALID_COMMAND input ["@1"] ["@L"]
             "(L)" "L" Assembler.new E Hb).
  - vm_compute. reflexivity.
  - vm_compute. reflexivity.
  - repeat constructor. vm_compute. discriminate.
  - vm_compute. discriminate.
Defined.

(** ** The encoded lines *)

Lemma testbit_step (v : Z) (k : nat) :
  v mod 2 ^ Z.of_nat (S k)
  = (if Z.testbit v (Z.of_nat k) then 1 else 0) * 2 ^ Z.of_nat k
    + v mod 2 ^ Z.of_nat k.
Proof.
  rewrite Nat2Z.inj_succ, Z.pow_succ_r by lia.
  rewrite (Z.mul_comm 2), Z.rem_mul_r by lia.
  rewrite <- Z.testbit_spec' by lia.
  destruct (Z.testbit v (Z.of_nat k)); simpl Z.b2z; lia.
Qed.

Lemma binary_value_bitset n : ∀ acc v,
  binary_value_from acc (StdString.bitset_to_string n v)
  = acc * 2 ^ Z.of_nat n + v mod 2 ^ Z.of_nat n.
Proof.
  induction n as [|n IH]; intros acc v.
  - simpl. rewrite Z.mod_1_r. lia.
  - cbn [StdString.bitset_to_string binary_value_from]. rewrite IH.
    rewrite (testbit_step v n), Nat2Z.inj_succ, Z.pow_succ_r by lia.
    destruct (Z.testbit v (Z.of_nat n)); simpl Ascii.eqb; cbv iota; lia.
Qed.

Lemma bitset_to_string_mod n : ∀ v w,
  v mod 2 ^ Z.of_nat n = w mod 2 ^ Z.of_nat n →
  StdString.bitset_to_string n v = StdString.bitset_to_string n w.
Proof.
  induction n as [|n IH]; intros v w H; [done|].
  cbn [StdString.bitset_to_string].
  assert (Hb : Z.testbit v (Z.of_nat n) = Z.testbit w (Z.of_nat n)).
  { rewrite <- (Z.mod_pow2_bits_low v (Z.of_nat (S n))) by lia.
    rewrite <- (Z.mod_pow2_bits_low w (Z.of_nat (S n)) (Z.of_nat n)) by lia.
    by rewrite H. }
  rewrite Hb. f_equal. apply IH.
  rewrite !testbit_step, Hb in H. lia.
Qed.

(** X17: an address line read back as a binary number is the address
    modulo 2^15: addresses 0..32767 are written exactly, larger ones lose
    their high bits without any diagnostic, and two addresses are written
    alike exactly when they agree modulo 2^15. *)
Theorem address_line_value (a b : Z) :
  binary_value (Assembler.encodeA a) = a mod 2 ^ 15
  ∧ (0 ≤ a < 2 ^ 15 → binary_value (Assembler.encodeA a) = a)
  ∧ (Assembler.encodeA a = Assembler.encodeA b
     ↔ a mod 2 ^ 15 = b mod 2 ^ 15).
Proof.
  assert (H : ∀ x, binary_value (Assembler.encodeA x) = x mod 2 ^ 15).
  { intros x. unfold binary_value, Assembler.encodeA.
    change ("0" +:+ StdString.bitset_to_string ADDRESS_LEN x)
      with (String "0" (StdString.bitset_to_string ADDRESS_LEN x)).
    cbn [binary_value_from]. change (Ascii.eqb "0" "1") with false.
    rewrite binary_value_bitset. unfold ADDRESS_LEN. 
    change (Z.of_nat 15) with 15. lia. }
  split; [apply H|]. split.
  - intros Ha. rewrite H. by apply Z.mod_small.
  - split.
    + intros E. by rewrite <- !H, E.
    + intros E. unfold Assembler.encodeA. f_equal.
      by apply bitset_to_string_mod.
Qed.

Lemma address_line_value_witness :
  binary_value (Assembler.encodeA 24576) = 24576
  ∧ Assembler.encodeA 32768 = Assembler.encodeA 0.
Proof.
  split.
  - apply (proj1 (proj2 (address_line_value 24576 0))). lia.
  - apply (proj2 (proj2 (address_line_value 32768 0))). reflexivity.
Defined.

Lemma string_app_inj x : ∀ x' y y',
  String.length x = String.length x' →
  x +:+ y = x' +:+ y' → x = x' ∧ y = y'.
Proof.
  induction x as [|a x IH]; intros [|a' x'] y y' Hlen H; try done.
  change (String a (x +:+ y) = String a' (x' +:+ y')) in H.
  injection H as -> H. simpl in Hlen.
  destruct (IH x' y y') as [-> ->]; [lia | done | done].
Qed.

Lemma field_bits_known f m :
  m ∈ dom (table_of f Code.new) →
  table_of f Code.new !! m = Some (field_bits f m)
  ∧ String.length (field_bits f m) = field_width f.
Proof.
  intros [bits Hm]%elem_of_dom. unfold field_bits. rewrite Hm. split; [done|].
  apply (tables_bits f m bits Hm).
Qed.

Lemma field_bits_inj f m m' :
  m ∈ dom (table_of f Code.new) → m' ∈ dom (table_of f Code.new) →
  field_bits f m = field_bits f m' → m = m'.
Proof.
  intros [Hm _]%field_bits_known [Hm' _]%field_bits_known E.
  destruct (tables_reversible f m' _ Hm') as [_ Hinj].
  by apply (Hinj m (field_bits f m) Hm).
Qed.

(** X18: two compute commands with known mnemonics are written alike only
    if they have the same destination, computation and jump; and a compute
    line is never equal to an address line. *)
Theorem compute_line_injective (d c j d' c' j' : string) (cd cd' : Code.t)
    (address : Z) :
  code_answers cd → code_answers cd' →
  known_mnemonics (ComputeCommand d c j) →
  known_mnemonics (ComputeCommand d' c' j') →
  ((Assembler.encodeC d c j cd).1 = (Assembler.encodeC d' c' j' cd').1 →
   d = d' ∧ c = c' ∧ j = j')
  ∧ (Assembler.encodeC d c j cd).1 ≠ Assembler.encodeA address.
Proof.
  intros Hcd Hcd' (Hd & Hc & Hj) (Hd' & Hc' & Hj').
  rewrite (proj1 (encodeC_answers d c j cd Hcd)).
  rewrite (proj1 (encodeC_answers d' c' j' cd' Hcd')).
  split; [|discriminate].
  intros H.
  change ("111" +:+ ?x) with (String "1" (String "1" (String "1" x))) in H.
  injection H as H.
  destruct (field_bits_known Comp c Hc) as [_ L1].
  destruct (field_bits_known Comp c' Hc') as [_ L1'].
  destruct (field_bits_known Dest d Hd) as [_ L2].
  destruct (field_bits_known Dest d' Hd') as [_ L2'].
  apply string_app_inj in H as [Ec H]; [|congruence].
  apply string_app_inj in H as [Ed Ej]; [|congruence].
  split; [|split].
  - by apply (field_bits_inj Dest).
  - by apply (field_bits_inj Comp).
  - by apply (field_bits_inj Jump).
Qed.

Lemma compute_line_injective_witness :
  (Assembler.encodeC "D" "D+A" "" Code.new).1
  ≠ (Assembler.encodeC "D" "D+M" "" Code.new).1.
Proof.
  intros E.
  assert (Hk : ∀ c, c ∈ ["D+A"; "D+M"] →
                known_mnemonics (ComputeCommand "D" c "")).
  { intros c Hc. repeat split; try (apply elem_of_dom; eexists; vm_compute;
                                    reflexivity).
    apply elem_of_cons in Hc as [->|Hc];
      [|apply elem_of_cons in Hc as [->|Hc]; [|by apply elem_of_nil in Hc]];
      apply elem_of_dom; eexists; vm_compute; reflexivity. }
  destruct (proj1 (compute_line_injective "D" "D+A" "" "D" "D+M" ""
                     Code.new Code.new 0 code_answers_new code_answers_new
                     (Hk "D+A" ltac:(left))
                     (Hk "D+M" ltac:(right; left))) E) as (_ & Hc & _).
  discriminate Hc.
Defined.

Lemma digits_value_app ds : ∀ acc rest,
  all_digits ds = true →
  StdString.isdigit (StdString.front rest) = false →
  StdString.digits_value acc (ds +:+ rest) = StdString.digits_value acc ds.
Proof.
  induction ds as [|a ds IH]; intros acc rest Hd Hr.
  - change ("" +:+ rest) with rest. destruct rest as [|b rest]; [done|].
    simpl in *. by rewrite Hr.
  - apply andb_true_iff in Hd as [Ha Hd].
    change (String a ds +:+ rest) with (String a (ds +:+ rest)).
    cbn [StdString.digits_value]. rewrite Ha. by apply IH.
Qed.

(** X19: an address operand that starts with a digit is a literal: the
    symbol table is neither consulted nor changed, the value is that of
    the leading digits, whatever text follows them is ignored, and a value
    above INT_MAX raises the exception. *)
Theorem numeric_operand (ds rest : string) (st : SymbolTable.t) :
  ds ≠ "" → all_digits ds = true →
  StdString.isdigit (StdString.front rest) = false →
  Assembler.resolve (ds +:+ rest) st
  = if StdString.digits_value 0 ds <=? INT_MAX
    then Some (StdString.digits_value 0 ds, st)
    else None.
Proof.
  intros Hne Hd Hr. unfold Assembler.resolve, StdString.stoi.
  rewrite digits_value_app by done.
  destruct ds as [|a ds]; [done|]. apply andb_true_iff in Hd as [Ha _].
  change (StdString.front (String a ds +:+ rest)) with a. rewrite Ha.
  cbv zeta. by destruct (_ <=? _).
Qed.

Lemma numeric_operand_witness :
  Assembler.resolve ("12" +:+ "abc") SymbolTable.new
  = Some (12, SymbolTable.new).
Proof.
  rewrite (numeric_operand "12" "abc" SymbolTable.new).
  - vm_compute. reflexivity.
  - discriminate.
  - vm_compute. reflexivity.
  - vm_compute. reflexivity.
Defined.

(** X21: binding a label composes with the other operations of the table:
    afterwards the name is contained, [getAddress] and [addVariable] return
    the bound address without changing the table or allocating a variable
    address, other names and the variable counter are untouched, and a
    second binding of the name replaces the first. *)
Theorem addEntry_then_lookup (name : string) (address address' : Z)
    (st : SymbolTable.t) :
  let st1 := SymbolTable.addEntry name address st in
  SymbolTable.contains name st1 = true
  ∧ SymbolTable.getAddress name st1 = (address, st1)
  ∧ SymbolTable.addVariable name st1 = (address, st1)
  ∧ (∀ other, other ≠ name →
       SymbolTable.table st1 !! other = SymbolTable.table st !! other)
  ∧ SymbolTable.nextVariableAddress st1 = SymbolTable.nextVariableAddress st
  ∧ SymbolTable.addEntry name address' st1
    = SymbolTable.addEntry name address' st.
Proof.
  intros st1.
  assert (H : SymbolTable.table st1 !! name = Some address)
    by apply lookup_insert_eq.
  split; [by apply SymbolTableFacts.contains_true|].
  split; [by apply SymbolTableFacts.getAddress_bound|].
  split; [by apply SymbolTableFacts.addVariable_bound|].
  split; [intros other Hne; by apply lookup_insert_ne|].
  split; [done|].
  unfold SymbolTable.addEntry. simpl. by rewrite insert_insert_eq.
Qed.

(** ** Well-formed compute instructions, end to end *)

Lemma tables_tidy (f : field) :
  map_Forall (λ m _, tidy m) (table_of f Code.new).
Proof.
  destruct f; refine (@bool_decide_unpack _ _ _); vm_compute; reflexivity.
Qed.

Lemma no_space_app x y : no_space (x +:+ y) = no_space x && no_space y.
Proof.
  induction x as [|a x IH]; [done|].
  change (String a x +:+ y) with (String a (x +:+ y)). simpl.
  by rewrite IH, andb_assoc.
Qed.

Lemma no_space_free_of c s :
  StdString.isspace c = true → no_space s = true → free_of c s.
Proof.
  unfold free_of. intros Hc. induction s as [|a s IH]; [done|].
  simpl. intros [Ha Hs]%andb_true_iff. apply negb_true_iff in Ha.
  destruct (Ascii.eqb a c) eqn:E.
  - apply Ascii.eqb_eq in E. congruence.
  - by rewrite IH.
Qed.

Lemma getlines_single s : free_of "010" s → StdString.getlines s = [s].
Proof.
  unfold free_of. induction s as [|a s IH]; [done|].
  simpl. destruct (Ascii.eqb a "010"); [done|].
  destruct (StdString.index_char "010" s); [done|]. intros _.
  by rewrite IH.
Qed.

(** A source of one clean line holding a compute command. *)
Lemma single_compute_line u1 u2 line d c j :
  StdString.size line < StdString.npos →
  no_space line = true → free_of "/" line → line ≠ "" →
  classify line = ComputeCommand d c j →
  Assembler.output u1 u2 line = [(Assembler.encodeC d c j Code.new).1].
Proof.
  intros Hsize Hns Hslash Hne Hc.
  assert (Hl : line_command line = Some (ComputeCommand d c j)).
  { unfold line_command.
    rewrite strip_slash_free, remove_if_id by done.
    destruct line; [done|]. cbn [StdString.empty]. by rewrite Hc. }
  assert (E : ∀ u, reported_commands u line = [ComputeCommand d c j]).
  { intros u. rewrite reported_commands_lines.
    rewrite getlines_single by (by apply no_space_free_of).
    cbn [reported]. by rewrite Hl. }
  unfold Assembler.output, Assembler.assemble, Assembler.firstPass.
  rewrite secondPass_commands, firstPass_run_commands, !E.
  cbn [foldl firstPass_step snd secondPass_on].
  by destruct (Assembler.encodeC d c j _) as [l cd].
Qed.

Lemma tidy_line_facts (x y : string) (sep : ascii) :
  tidy x → (sep = "="%char ∨ sep = ";"%char) →
  no_space (x +:+ String sep y) = no_space y
  ∧ (free_of "/" y → free_of "/" (x +:+ String sep y))
  ∧ plain_front (x +:+ String sep y)
  ∧ x +:+ String sep y ≠ "".
Proof.
  intros (Hns & Hsl & He & Hs & Hat & Hpar & Hlen) Hsep.
  split; [|split; [|split]].
  - rewrite no_space_app, Hns. simpl.
    by destruct Hsep as [-> | ->].
  - intros Hy. apply free_of_app; [done|]. unfold free_of in *. simpl.
    destruct Hsep as [-> | ->]; simpl; by rewrite Hy.
  - unfold plain_front. rewrite front_app.
    destruct x; [|done]. simpl. destruct Hsep as [-> | ->]; done.
  - by destruct x.
Qed.

(** X20: a compute instruction written with mnemonics of the three tables,
    in any of the shapes dest=comp;jump, dest=comp and comp;jump, is
    translated to the single line 111, computation bits, destination bits,
    jump bits, the bits of an absent part being 000. *)
Theorem known_instruction_translation (u1 u2 : CommandType)
    (d c j db cb jb : string) :
  Code.destTable Code.new !! d = Some db →
  Code.compTable Code.new !! c = Some cb →
  Code.jumpTable Code.new !! j = Some jb →
  Assembler.output u1 u2 (d +:+ "=" +:+ c +:+ ";" +:+ j)
  = ["111" +:+ cb +:+ db +:+ jb]
  ∧ Assembler.output u1 u2 (d +:+ "=" +:+ c)
    = ["111" +:+ cb +:+ db +:+ "000"]
  ∧ Assembler.output u1 u2 (c +:+ ";" +:+ j)
    = ["111" +:+ cb +:+ "000" +:+ jb].
Proof.
  intros Hd Hc Hj.
  pose proof (tables_tidy Dest d db Hd) as Td.
  pose proof (tables_tidy Comp c cb Hc) as Tc.
  pose proof (tables_tidy Jump j jb Hj) as Tj.
  assert (Hbits : ∀ d' c' j',
            (Assembler.encodeC d' c' j' Code.new).1
            = "111" +:+ field_bits Comp c' +:+ field_bits Dest d'
              +:+ field_bits Jump j')
    by (intros; apply encodeC_answers, code_answers_new).
  assert (Ed : field_bits Dest d = db) 
    by (unfold field_bits; cbn [table_of]; by rewrite Hd).
  assert (Ec : field_bits Comp c = cb) 
    by (unfold field_bits; cbn [table_of]; by rewrite Hc).
  assert (Ej : field_bits Jump j = jb) 
    by (unfold field_bits; cbn [table_of]; by rewrite Hj).
  destruct Td as (Dns & Dsl & De & Ds & Dat & Dpar & Dlen).
  destruct Tc as (Cns & Csl & Ce & Cs & Cat & Cpar & Clen).
  destruct Tj as (Jns & Jsl & Je & Js & Jat & Jpar & Jlen).
  assert (Td : tidy d) by done. assert (Tc : tidy c) by done.
  split; [|split].
  - destruct (tidy_line_facts c j ";" Tc ltac:(by right))
      as (N2 & S2 & _ & _).
    destruct (tidy_line_facts d (c +:+ String ";" j) "=" Td ltac:(by left))
      as (N1 & S1 & F1 & E1).
    rewrite (single_compute_line u1 u2 _ d c j).
    + by rewrite Hbits, Ed, Ec, Ej.
    + unfold StdString.size, StdString.npos.
      rewrite !string_length_app. simpl. lia.
    + change (d +:+ "=" +:+ c +:+ ";" +:+ j)
        with (d +:+ String "=" (c +:+ String ";" j)).
      by rewrite N1, N2.
    + apply S1, S2. done.
    + exact E1.
    + apply classify_dest_comp_jump; try done.
      unfold StdString.size, StdString.npos.
      rewrite !string_length_app. simpl. lia.
  - destruct (tidy_line_facts d c "=" Td ltac:(by left))
      as (N1 & S1 & F1 & E1).
    rewrite (single_compute_line u1 u2 _ d c "").
    + rewrite Hbits, Ed, Ec. reflexivity.
    + unfold StdString.size, StdString.npos.
      rewrite !string_length_app. simpl. lia.
    + change (d +:+ "=" +:+ c) with (d +:+ String "=" c). by rewrite N1.
    + by apply S1.
    + exact E1.
    + apply classify_dest_comp; try done.
      unfold StdString.size, StdString.npos.
      rewrite !string_length_app. simpl. lia.
  - destruct (tidy_line_facts c j ";" Tc ltac:(by right))
      as (N1 & S1 & F1 & E1).
    rewrite (single_compute_line u1 u2 _ "" c j).
    + rewrite Hbits, Ec, Ej. reflexivity.
    + unfold StdString.size, StdString.npos.
      rewrite !string_length_app. simpl. lia.
    + change (c +:+ ";" +:+ j) with (c +:+ String ";" j). by rewrite N1.
    + by apply S1.
    + exact E1.
    + apply classify_comp_jump; try done.
      unfold StdString.size, StdString.npos.
      rewrite !string_length_app. simpl. lia.
Qed.

Lemma known_instruction_translation_witness :
  Assembler.output INVALID_COMMAND INVALID_COMMAND
    ("AM" +:+ "=" +:+ "M-1" +:+ ";" +:+ "JNE")
  = ["111" +:+ "1110010" +:+ "101" +:+ "101"].
Proof.
  apply (known_instruction_translation INVALID_COMMAND INVALID_COMMAND
           "AM" "M-1" "JNE" "101" "1110010" "101").
  - vm_compute. reflexivity.
  - vm_compute. reflexivity.
  - vm_compute. reflexivity.
Defined.


(** ** Compute lines, whatever the order of their operators *)

Lemma parseCCommand_command p :
  Parser.commandType p = C_COMMAND →
  ∃ d c j, command_of (Parser.parseCCommand p) = ComputeCommand d c j.
Proof.
  intros H. unfold command_of, Parser.parseCCommand, Parser.getCommandType.
  destruct (negb (StdString.find_char _ "=" =? StdString.npos));
    cbn [Parser.commandType]; rewrite H; by eexists _, _, _.
Qed.

Lemma find_char_found cc c :
  StdString.size cc < StdString.npos →
  is_Some (split_first c cc) →
  (StdString.find_char cc c =? StdString.npos) = false.
Proof.
  intros Hs [[x y] H]. rewrite find_char_split, H.
  apply split_first_length in H.
  unfold StdString.size, StdString.npos in *. apply Z.eqb_neq. lia.
Qed.

(** C8, amended: a stripped line that does not start with '@', is not
    enclosed in '(' and ')', and contains '=' or ';' is classified as a
    compute command; when no ';' stands before its first '=', the fields
    are those obtained by splitting on the first '=' (destination before
    it, empty if there is none) and then splitting the remainder on the
    first ';' (computation before it, jump after it, empty if there is
    none).  The line is one a [std::string] can hold. *)
Theorem compute_command_fields (cc : string) :
  StdString.size cc < StdString.npos →
  StdString.front cc ≠ "@"%char →
  ¬ (StdString.front cc = "("%char ∧ StdString.back cc = ")"%char) →
  is_Some (split_first "=" cc) ∨ is_Some (split_first ";" cc) →
  (∃ d c j, classify cc = ComputeCommand d c j)
  ∧ ((∀ d rest, split_first "=" cc = Some (d, rest) →
                split_first ";" d = None) →
     classify cc = compute_fields cc).
Proof.
  intros Hsize Hat Hlab Hop.
  split; [|by apply compute_fields_in_order].
  unfold classify, Parser.parseCommand.
  cbn [parser_at Parser.currentCommand].
  rewrite (proj2 (Ascii.eqb_neq _ _) Hat).
  assert (Ascii.eqb (StdString.front cc) "("
          && Ascii.eqb (StdString.back cc) ")" = false) as ->.
  { apply not_true_is_false. intros [H1 H2]%andb_true_iff.
    apply Hlab. split; by apply Ascii.eqb_eq. }
  assert (negb (StdString.find_char cc "=" =? StdString.npos)
          || negb (StdString.find_char cc ";" =? StdString.npos) = true)
    as ->.
  { destruct Hop as [H|H]; rewrite (find_char_found _ _ Hsize H);
      [done | apply orb_true_r]. }
  by apply parseCCommand_command.
Qed.

Lemma compute_command_fields_witness :
  (∃ d c j, classify "D=D+A;JGT" = ComputeCommand d c j)
  ∧ classify "D=D+A;JGT" = compute_fields "D=D+A;JGT"
  ∧ ∃ d c j, classify "D;JMP=A" = ComputeCommand d c j.
Proof.
  assert (H1 : StdString.size "D=D+A;JGT" < StdString.npos)
    by (vm_compute; reflexivity).
  assert (H2 : StdString.front "D=D+A;JGT" ≠ "@"%char)
    by (vm_compute; discriminate).
  assert (H3 : ¬ (StdString.front "D=D+A;JGT" = "("%char
                  ∧ StdString.back "D=D+A;JGT" = ")"%char))
    by (vm_compute; intros [H _]; discriminate H).
  assert (H4 : is_Some (split_first "=" "D=D+A;JGT")
               ∨ is_Some (split_first ";" "D=D+A;JGT"))
    by (left; eexists; vm_compute; reflexivity).
  destruct (compute_command_fields "D=D+A;JGT" H1 H2 H3 H4) as [W1 W2].
  split; [exact W1|]. split.
  - apply W2. intros d rest H. vm_compute in H. injection H as <- <-.
    vm_compute. reflexivity.
  - apply (compute_command_fields "D;JMP=A").
    + vm_compute. reflexivity.
    + vm_compute. discriminate.
    + vm_compute. intros [H _]. discriminate H.
    + left. eexists. vm_compute. reflexivity.
Defined.

(** ** The emitted lines, one by one *)

Lemma field_bits_length f m :
  String.length (field_bits f m)
  = if decide (m ∈ dom (table_of f Code.new)) then field_width f else O.
Proof.
  destruct (decide _) as [H|H].
  - by apply field_bits_known.
  - apply not_elem_of_dom in H. unfold field_bits. by rewrite H.
Qed.

Lemma encodeC_short d c j cd :
  code_answers cd → ¬ known_mnemonics (ComputeCommand d c j) →
  (String.length (Assembler.encodeC d c j cd).1 < 16)%nat.
Proof.
  intros Hcd Hk. rewrite (proj1 (encodeC_answers d c j cd Hcd)).
  rewrite !string_length_app, !field_bits_length. cbn [known_mnemonics] in Hk.
  cbn [table_of field_width String.length] in *.
  repeat destruct (decide _); try (simpl; lia). exfalso. by apply Hk.
Qed.

Lemma secondPass_on_line cs : ∀ a i line,
  code_extends (Assembler.code a) → code_answers (Assembler.code a) →
  (secondPass_on cs a).1.1 !! i = Some line →
  ∃ c, filter (λ c, is_instruction c = true) cs !! i = Some c
       ∧ line_fits c line.
Proof.
  induction cs as [|c cs IH]; intros a i line Hx Ha Hi; [done|].
  rewrite filter_cons.
  destruct c as [sym|d c j|sym|]; cbn [secondPass_on] in Hi.
  - rewrite decide_True by done.
    destruct (Assembler.resolve sym _) as [[address st]|]; [|done].
    specialize (IH {| Assembler.symbolTable := st;
                      Assembler.code := Assembler.code a |}).
    destruct (secondPass_on cs _) as [[out s] a']. cbn [fst snd] in *.
    destruct i as [|i].
    + injection Hi as <-. eexists. split; [done|]. apply encodeA_encoded.
    + by apply (IH i line).
  - rewrite decide_True by done.
    pose proof (encodeC_encoded d c j _ Hx) as He.
    pose proof (encodeC_short d c j _ Ha) as Hs.
    pose proof (encodeC_extends d c j _ Hx) as Hx'.
    pose proof (proj2 (encodeC_answers d c j _ Ha)) as Ha'.
    destruct (Assembler.encodeC d c j _) as [l cd]. cbn [fst snd] in *.
    specialize (IH {| Assembler.symbolTable := Assembler.symbolTable a;
                      Assembler.code := cd |}).
    destruct (secondPass_on cs _) as [[out s] a']. cbn [fst snd] in *.
    destruct i as [|i].
    + injection Hi as <-. eexists. split; [done|]. by split.
    + by apply (IH i line).
  - rewrite decide_False by done. by apply (IH a).
  - rewrite decide_False by done. by apply (IH a).
Qed.

(** C2, amended: line by line.  The i-th line pass 2 writes is the line of
    the i-th address or compute command it is given.  If that command is an
    address command the line is exactly 16 characters of '0' and '1'; if it
    is a compute command the line is so when its destination, computation
    and jump mnemonics are all in the encoder's tables, and is shorter than
    16 characters when one of them is not. *)
Theorem emitted_line_is_16_bits (u1 u2 : CommandType) (input : string)
    (i : nat) (line : string) :
  Assembler.output u1 u2 input !! i = Some line →
  ∃ c, filter (λ c, is_instruction c = true) (reported_commands u2 input)
       !! i = Some c
       ∧ line_fits c line.
Proof.
  unfold Assembler.output, Assembler.assemble.
  rewrite secondPass_commands. apply secondPass_on_line.
  - unfold Assembler.firstPass. rewrite firstPass_run_commands.
    rewrite firstPass_step_code. apply code_extends_new.
  - unfold Assembler.firstPass. rewrite firstPass_run_commands.
    rewrite firstPass_step_code. apply code_answers_new.
Qed.

Lemma emitted_line_is_16_bits_witness :
  let input := "D=X" +:+ LF +:+ "@1" in
  Assembler.output INVALID_COMMAND INVALID_COMMAND input
  = ["111010000"; "0000000000000001"]
  ∧ reported_commands INVALID_COMMAND input
    = [ComputeCommand "D" "X" ""; AddressCommand "1"]
  ∧ encoded_instruction "0000000000000001".
Proof.
  intros input.
  assert (Eo : Assembler.output INVALID_COMMAND INVALID_COMMAND input
               = ["111010000"; "0000000000000001"])
    by (vm_compute; reflexivity).
  assert (Er : reported_commands INVALID_COMMAND input
               = [ComputeCommand "D" "X" ""; AddressCommand "1"])
    by (vm_compute; reflexivity).
  split; [exact Eo|]. split; [exact Er|].
  destruct (emitted_line_is_16_bits INVALID_COMMAND INVALID_COMMAND input
              1 "0000000000000001") as (c & Hc & Hfit).
  - rewrite Eo. reflexivity.
  - rewrite Er in Hc. vm_compute in Hc. injection Hc as <-. exact Hfit.
Defined.

(** ** A blank first line and the first variable *)

(** C4 fails on the code: the constructor of Parser leaves commandType
    uninitialised, and a first line that strips to nothing is acted on with
    that value.  When it reads as A_COMMAND (the enumerator 0), pass 2
    resolves the empty symbol before any line is parsed: the empty name
    takes address 16 and the first variable of the source takes 17.  With
    another start value the same source binds its first variable to 16. *)
Theorem blank_first_line_shifts_variables :
  let input := "// only a comment" +:+ LF +:+ "@i" in
  let r := Assembler.assemble A_COMMAND A_COMMAND input Assembler.new in
  let r' := Assembler.assemble INVALID_COMMAND INVALID_COMMAND input
              Assembler.new in
  symbolic_operands (omap line_command (StdString.getlines input)) = ["i"]
  ∧ r.1 = (["0000000000010000"; "0000000000010001"], Assembler.Returned)
  ∧ SymbolTable.table (Assembler.symbolTable r.2) !! "" = Some 16
  ∧ SymbolTable.table (Assembler.symbolTable r.2) !! "i" = Some 17
  ∧ r'.1 = (["0000000000010000"], Assembler.Returned)
  ∧ SymbolTable.table (Assembler.symbolTable r'.2) !! "i" = Some 16.
Proof. vm_compute. repeat split; reflexivity. Qed.
